(** * neurons/Miner/pow.py: the proof-of-work job runner

    A shallow embedding of [hashcat_verify], [run_hashcat] and
    [run_miner_pow], and the properties of the design document that
    concern them.

    Python text is a sequence of Unicode code points, so a [str] is a list
    of code points ([N]); this matters for [str.strip], whose whitespace
    set reaches beyond ASCII.  Exceptions are values of [exn]; a
    computation that may raise returns an [outcome].  Wall-clock readings
    are binary64 floats, as [time.time()] returns them.

    The world outside the module (the clock, the uuid generator, the child
    process, number formatting, the [compute] configuration) is an [env];
    the module's own state (the [queue], what it logged and spawned) is a
    [world], threaded through the monad [M]. *)

From Stdlib Require Import List NArith ZArith Bool Lia String Ascii.
From Stdlib Require Import Floats.PrimFloat.
From Stdlib Require Import Permutation DecimalZ.
From Stdlib Require Decimal.
Import ListNotations.

(** ** Exceptions *)

(** The exception classes that occur in the module.  Every class but
    [KeyboardInterrupt] and [SystemExit] derives from [Exception]. *)
Inductive exn : Type :=
  | IndexError (text : list N)
  | ValueError (text : list N)
  | OSError (text : list N)
  | TimeoutExpired (text : list N)
  | KeyboardInterrupt
  | SystemExit (text : list N).

Inductive outcome (A : Type) : Type :=
  | Ret (a : A)
  | Raise (e : exn).

Arguments Ret {A} a.
Arguments Raise {A} e.

(** ** Python strings *)

Module Py.

Definition char := N.
Definition str := list char.

(** An ASCII literal as a [str]. *)
Definition lit (s : string) : str :=
  map N_of_ascii (list_ascii_of_string s).

Definition LF : char := 10%N.
Definition SPACE : char := 32%N.
Definition COLON : char := 58%N.
Definition HYPHEN : char := 45%N.
Definition APOSTROPHE : char := 39%N.
Definition QUOTATION : char := 34%N.

(** [s1 == s2] *)
Fixpoint str_eqb (s1 s2 : str) : bool :=
  match s1, s2 with
  | [], [] => true
  | c1 :: t1, c2 :: t2 => (c1 =? c2)%N && str_eqb t1 t2
  | _, _ => false
  end.

(** [s.startswith(p)] *)
Fixpoint startswith (p s : str) : bool :=
  match p, s with
  | [], _ => true
  | _ :: _, [] => false
  | c :: p', d :: s' => (c =? d)%N && startswith p' s'
  end.

(** [sub in s] *)
Fixpoint contains (sub s : str) : bool :=
  startswith sub s ||
  match s with
  | [] => false
  | _ :: t => contains sub t
  end.

(** [s.split(sep)] for a separator of one character: never empty. *)
Fixpoint split (sep : char) (s : str) : list str :=
  match s with
  | [] => [[]]
  | c :: t =>
      if (c =? sep)%N then [] :: split sep t
      else match split sep t with
           | [] => [[c]]
           | f :: fs => (c :: f) :: fs
           end
  end.

(** [sep.join(parts)] *)
Fixpoint join (sep : str) (parts : list str) : str :=
  match parts with
  | [] => []
  | [p] => p
  | p :: ps => p ++ sep ++ join sep ps
  end.

(** [c.isspace()], CPython's [_PyUnicode_IsWhitespace]. *)
Definition isspace (c : char) : bool :=
  ((9 <=? c) && (c <=? 13) || (28 <=? c) && (c <=? 32)
   || (c =? 133) || (c =? 160) || (c =? 5760)
   || (8192 <=? c) && (c <=? 8202)
   || (c =? 8232) || (c =? 8233) || (c =? 8239) || (c =? 8287)
   || (c =? 12288))%N.

(** [s.lstrip()], [s.rstrip()], [s.strip()] without argument. *)
Fixpoint lstrip (s : str) : str :=
  match s with
  | [] => []
  | c :: t => if isspace c then lstrip t else s
  end.

Definition rstrip (s : str) : str := rev (lstrip (rev s)).

Definition strip (s : str) : str := rstrip (lstrip s).

(** [l[-1]]: raises [IndexError] on the empty list. *)
Definition last_item {A : Type} (l : list A) : outcome A :=
  match rev l with
  | [] => Raise (IndexError (lit "list index out of range"))
  | x :: _ => Ret x
  end.

(** [s.replace(old, new)] for [old] of one character. *)
Fixpoint replace (old : char) (new : str) (s : str) : str :=
  match s with
  | [] => []
  | c :: t => if (c =? old)%N then new ++ replace old new t
              else c :: replace old new t
  end.

(** [bool(s)] *)
Definition truthy (s : str) : bool :=
  match s with [] => false | _ :: _ => true end.

(** [str(n)] for an [int]. *)
Fixpoint digits (u : Decimal.uint) : str :=
  match u with
  | Decimal.Nil => []
  | Decimal.D0 u => 48%N :: digits u
  | Decimal.D1 u => 49%N :: digits u
  | Decimal.D2 u => 50%N :: digits u
  | Decimal.D3 u => 51%N :: digits u
  | Decimal.D4 u => 52%N :: digits u
  | Decimal.D5 u => 53%N :: digits u
  | Decimal.D6 u => 54%N :: digits u
  | Decimal.D7 u => 55%N :: digits u
  | Decimal.D8 u => 56%N :: digits u
  | Decimal.D9 u => 57%N :: digits u
  end.

Definition str_of_int (z : Z) : str :=
  match Z.to_int z with
  | Decimal.Pos u => digits u
  | Decimal.Neg u => HYPHEN :: digits u
  end.

End Py.

Import Py.

(** ** The result verifier *)

(** The [for item in ...] loop of [hashcat_verify]. *)
Fixpoint hashcat_verify_loop (_hash : str) (items : list str)
  : outcome (option str) :=
  match items with
  | [] => Ret None
  | item :: rest =>
      if contains _hash item then
        match last_item (split COLON (strip item)) with
        | Ret field => Ret (Some field)
        | Raise e => Raise e
        end
      else hashcat_verify_loop _hash rest
  end.

Definition hashcat_verify (_hash output : str) : outcome (option str) :=
  hashcat_verify_loop _hash (split LF output).

(** The verifier as the design document words it: the last field of the
    first matching line, and that field trimmed. *)
Definition hashcat_verify_documented (_hash output : str) : option str :=
  match find (contains _hash) (split LF output) with
  | None => None
  | Some item => Some (strip (last (split COLON item) []))
  end.

(** ** [shlex.quote] *)

(** A character outside the class [[^\w@%+=:,./-]] (ASCII). *)
Definition shlex_safe (c : char) : bool :=
  ((48 <=? c) && (c <=? 57) || (65 <=? c) && (c <=? 90)
   || (97 <=? c) && (c <=? 122) || (c =? 95)
   || (c =? 64) || (c =? 37) || (c =? 43) || (c =? 61) || (c =? 58)
   || (c =? 44) || (c =? 46) || (c =? 47) || (c =? 45))%N.

Definition shlex_quote (s : str) : str :=
  if negb (truthy s) then [APOSTROPHE; APOSTROPHE]
  else if forallb shlex_safe s then s
  else [APOSTROPHE]
       ++ replace APOSTROPHE
            [APOSTROPHE; QUOTATION; APOSTROPHE; QUOTATION; APOSTROPHE] s
       ++ [APOSTROPHE].

(** ** Records *)

(** [class PowResult(TypedDict)] *)
Record PowResult : Type := {
  password : option str;
  local_execution_time : float;
  error : option str
}.

(** What [subprocess.run(..., capture_output=True, text=True)] returns. *)
Record CompletedProcess : Type := {
  returncode : Z;
  stdout : str;
  stderr : str
}.

(** ** The environment and the state *)

Inductive log_level : Type := INFO | TRACE | SUCCESS | WARNING.

(** What the module does to the outside, in order. *)
Inductive event : Type :=
  | Log (level : log_level) (msg : str)
  | Spawn (argv : list str) (timeout : Z)
  | PrintExc (e : exn).

(** The outside world.  Each interaction with it advances a counter
    ([tick]); the oracles are indexed by that counter.  A child process
    either completes or [subprocess.run] raises ([TimeoutExpired] when the
    limit passes, [OSError] when it cannot be spawned, ...). *)
Record env : Type := {
  clock : nat -> float;
  uuid4 : nat -> str;
  child : nat -> list str -> Z -> outcome CompletedProcess;
  format_2f : float -> str;
  pow_timeout : Z
}.

(** [queue] is the module-level [deque]. *)
Record world : Type := {
  queue : list str;
  tick : nat;
  trace : list event
}.

Definition M (A : Type) : Type := world -> outcome A * world.

Definition ret {A : Type} (a : A) : M A := fun w => (Ret a, w).

Definition bind {A B : Type} (m : M A) (k : A -> M B) : M B :=
  fun w =>
    match m w with
    | (Ret a, w') => k a w'
    | (Raise e, w') => (Raise e, w')
    end.

Notation "x <- c1 ;; c2" := (bind c1 (fun x => c2))
  (at level 61, c1 at next level, right associativity).
Notation "c1 ;; c2" := (bind c1 (fun _ => c2))
  (at level 61, right associativity).

(** A pure computation that may raise, run in [M]. *)
Definition lift {A : Type} (o : outcome A) : M A := fun w => (o, w).

(** [try: body / except ...: handler]: [handler e] is [None] when no
    clause matches [e]. *)
Definition try_except {A : Type} (body : M A) (handler : exn -> option (M A))
  : M A :=
  fun w =>
    match body w with
    | (Ret a, w') => (Ret a, w')
    | (Raise e, w') =>
        match handler e with
        | Some h => h w'
        | None => (Raise e, w')
        end
    end.

(** [try: body / finally: final]: [final] runs on every exit of [body];
    an exception of [final] replaces the outcome of [body]. *)
Definition try_finally {A : Type} (body : M A) (final : M unit) : M A :=
  fun w =>
    match body w with
    | (o, w') =>
        match final w' with
        | (Ret _, w'') => (o, w'')
        | (Raise e, w'') => (Raise e, w'')
        end
    end.

Definition emit (ev : event) : M unit :=
  fun w => (Ret tt, {| queue := queue w; tick := tick w;
                       trace := trace w ++ [ev] |}).

(** [bt.logging.<level>(msg)] *)
Definition logging (level : log_level) (msg : str) : M unit :=
  emit (Log level msg).

(** [traceback.print_exc()] *)
Definition print_exc (e : exn) : M unit := emit (PrintExc e).

(** [time.time()] *)
Definition time_time (E : env) : M float :=
  fun w => (Ret (clock E (tick w)),
            {| queue := queue w; tick := S (tick w); trace := trace w |}).

(** [str(uuid.uuid4())] *)
Definition uuid_uuid4 (E : env) : M str :=
  fun w => (Ret (uuid4 E (tick w)),
            {| queue := queue w; tick := S (tick w); trace := trace w |}).

(** [subprocess.run(argv, capture_output=True, text=True, timeout=timeout)]:
    the argument vector goes to the child as it is, no shell in between. *)
Definition subprocess_run (E : env) (argv : list str) (timeout : Z)
  : M CompletedProcess :=
  fun w => (child E (tick w) argv timeout,
            {| queue := queue w; tick := S (tick w);
               trace := trace w ++ [Spawn argv timeout] |}).

(** [queue.append(x)] *)
Definition queue_append (x : str) : M unit :=
  fun w => (Ret tt, {| queue := queue w ++ [x]; tick := tick w;
                       trace := trace w |}).

(** [deque.remove(x)] on the items: drops the first occurrence. *)
Fixpoint remove_first (x : str) (q : list str) : option (list str) :=
  match q with
  | [] => None
  | y :: q' =>
      if str_eqb y x then Some q'
      else match remove_first x q' with
           | Some r => Some (y :: r)
           | None => None
           end
  end.

(** [queue.remove(x)]: raises [ValueError] when [x] is not there. *)
Definition queue_remove (x : str) : M unit :=
  fun w =>
    match remove_first x (queue w) with
    | Some q' => (Ret tt, {| queue := q'; tick := tick w; trace := trace w |})
    | None => (Raise (ValueError (lit "deque.remove(x): x not in deque")), w)
    end.

(** ** Exception classes *)

(** [isinstance(e, Exception)] *)
Definition is_Exception (e : exn) : bool :=
  match e with
  | KeyboardInterrupt | SystemExit _ => false
  | _ => true
  end.

(** [str(e)] *)
Definition exn_str (e : exn) : str :=
  match e with
  | IndexError t | ValueError t | OSError t | TimeoutExpired t
  | SystemExit t => t
  | KeyboardInterrupt => []
  end.

(** ** The process runner *)

Definition RECYCLE : str := [9851%N; 65039%N].  (* U+267B U+FE0F *)
Definition CHECK_MARK : str := [9989%N].        (* U+2705 *)
Definition CROSS_MARK : str := [10060%N].       (* U+274C *)

(** The [command] list of [run_hashcat]. *)
Definition command (hashcat_path _hash salt mode chars mask
                    hashcat_workload_profile session : str) : list str :=
  [ hashcat_path;
    _hash ++ lit ":" ++ salt;
    lit "-a";
    lit "3";
    lit "-D";
    lit "2";
    lit "-m";
    mode;
    lit "-1";
    chars;
    mask;
    lit "-w";
    hashcat_workload_profile;
    lit "--session";
    session;
    lit "--optimized-kernel-enable" ].

Definition command_str (cmd : list str) : str :=
  join (lit " ") (map shlex_quote cmd).

Definition run_hashcat (E : env)
    (run_id _hash salt mode chars mask : str) (timeout : Z)
    (hashcat_path hashcat_workload_profile session : str) : M PowResult :=
  start_time <- time_time E ;;
  logging INFO (run_id ++ lit ": " ++ RECYCLE ++ lit "  Challenge processing") ;;
  try_except
    (let cmd := command hashcat_path _hash salt mode chars mask
                  hashcat_workload_profile session in
     logging TRACE (command_str cmd) ;;
     process <- subprocess_run E cmd timeout ;;
     now <- time_time E ;;
     let execution_time := PrimFloat.sub now start_time in
     let failed : M PowResult :=
       let error_message :=
         run_id ++ lit ": " ++ CROSS_MARK
         ++ lit " Hashcat execution failed with code "
         ++ str_of_int (returncode process) ++ lit ": " ++ stderr process in
       logging WARNING error_message ;;
       ret {| password := None;
              local_execution_time := execution_time;
              error := Some error_message |} in
     if (returncode process =? 0)%Z && truthy (stdout process) then
       result <- lift (hashcat_verify _hash (stdout process)) ;;
       match result with
       | Some plaintext =>
           if truthy plaintext then
             logging SUCCESS
               (run_id ++ lit ": " ++ CHECK_MARK ++ lit " Challenge "
                ++ plaintext ++ lit " found in "
                ++ format_2f E execution_time ++ lit " seconds !") ;;
             ret {| password := Some plaintext;
                    local_execution_time := execution_time;
                    error := None |}
           else failed
       | None => failed
       end
     else failed)
    (fun e =>
       match e with
       | TimeoutExpired _ =>
           Some (now <- time_time E ;;
                 let execution_time := PrimFloat.sub now start_time in
                 let error_message :=
                   run_id ++ lit ": " ++ CROSS_MARK
                   ++ lit " Hashcat execution timed out ("
                   ++ format_2f E execution_time ++ lit ")" in
                 logging WARNING error_message ;;
                 ret {| password := None;
                        local_execution_time := execution_time;
                        error := Some error_message |})
       | _ =>
           if is_Exception e then
             Some (now <- time_time E ;;
                   let execution_time := PrimFloat.sub now start_time in
                   print_exc e ;;
                   let unknown_error_message :=
                     run_id ++ lit ": " ++ CROSS_MARK
                     ++ lit " run_hashcat execution failed" in
                   logging WARNING
                     (unknown_error_message ++ lit ": " ++ exn_str e) ;;
                   ret {| password := None;
                          local_execution_time := execution_time;
                          error := Some (unknown_error_message ++ lit ": "
                                         ++ exn_str e) |})
           else None
       end).

(** ** The orchestrator *)

Definition run_miner_pow (E : env)
    (run_id _hash salt mode chars mask : str)
    (hashcat_path hashcat_workload_profile hashcat_extended_options : str)
  : M PowResult :=
  try_finally
    (queue_append run_id ;;
     u <- uuid_uuid4 E ;;
     run_hashcat E run_id _hash salt mode chars mask (pow_timeout E)
       hashcat_path hashcat_workload_profile (replace HYPHEN [] u))
    (queue_remove run_id).

(** ** The CUDA probe *)

(** What [torch.cuda] answers ([torch] is taken as installed: the import
    inside the function succeeds). *)
Record torch_cuda : Type := {
  is_available : bool;
  device_count : Z
}.

Definition check_cuda_availability (T : torch_cuda) : M unit :=
  if is_available T then
    let device_count := device_count T in
    logging INFO
      (lit "CUDA is available with " ++ str_of_int device_count
       ++ lit " CUDA device(s)!")
  else
    logging WARNING
      (lit "CUDA is not available or not properly configured on this system.").

(** ** Vocabulary of the statements *)

(** The world [n] interactions later, with [evs] added to what happened. *)
Definition advance (w : world) (n : nat) (evs : list event) : world :=
  {| queue := queue w; tick := n + tick w; trace := trace w ++ evs |}.

(** An outcome of [subprocess.run] that an [except Exception] clause
    sees: the child completed, or an [Exception] was raised. *)
Definition catchable (o : outcome CompletedProcess) : Prop :=
  match o with
  | Ret _ => True
  | Raise e => is_Exception e = true
  end.

(** A computation that leaves the queue as it finds it. *)
Definition keeps_queue {A : Type} (m : M A) : Prop :=
  forall w, queue (snd (m w)) = queue w.

Definition is_spawn (ev : event) : bool :=
  match ev with
  | Spawn _ _ => true
  | _ => false
  end.

Definition is_warning (ev : event) : bool :=
  match ev with
  | Log WARNING _ => true
  | _ => false
  end.

(** A text that does not end with whitespace. *)
Definition no_trailing_space (s : str) : Prop :=
  match rev s with
  | [] => True
  | c :: _ => isspace c = false
  end.

(** A text that does not start with whitespace. *)
Definition no_leading_space (s : str) : Prop :=
  match s with
  | [] => True
  | c :: _ => isspace c = false
  end.

(** ** Test fixtures *)

Definition fake_tool (o : outcome CompletedProcess) : env :=
  {| clock := fun n => if Nat.leb n 1 then 1700000000.25%float
                       else 1700000001.75%float;
     uuid4 := fun _ => lit "6f1c0a2e-1b2c-4d3e-8f4a-5b6c7d8e9f00";
     child := fun _ _ _ => o;
     format_2f := fun _ => lit "1.50";
     pow_timeout := 30 |}.

Definition idle : world := {| queue := []; tick := 0; trace := [] |}.

Definition tool_error : CompletedProcess :=
  {| returncode := 255;
     stdout := [];
     stderr := lit "No devices found/left." |}.

Definition found_secret : CompletedProcess :=
  {| returncode := 0;
     stdout := lit "abc123:salt:secret123";
     stderr := [] |}.

Definition busy : world :=
  {| queue := [lit "run0"]; tick := 0; trace := [] |}.

Definition crowded : world :=
  {| queue := [lit "run0"; lit "run1"; lit "run2"]; tick := 0; trace := [] |}.

Definition cuda_rig : torch_cuda :=
  {| is_available := true; device_count := 2 |}.

(** [run_hashcat] and [run_miner_pow] on the challenge ["run1"], against a
    fake tool. *)
Definition run_fake (o : outcome CompletedProcess) : M PowResult :=
  run_hashcat (fake_tool o) (lit "run1") (lit "abc123") (lit "salt")
    (lit "610") (lit "abc") (lit "?1?1") 30 (lit "hashcat") (lit "3")
    (lit "6f1c0a2e1b2c4d3e8f4a5b6c7d8e9f00").

Definition dispatch_fake (o : outcome CompletedProcess) : M PowResult :=
  run_miner_pow (fake_tool o) (lit "run1") (lit "abc123") (lit "salt")
    (lit "610") (lit "abc") (lit "?1?1") (lit "hashcat") (lit "3")
    (lit "--force").

(** * Properties *)

(** ** Strings *)

Section StrFacts.

Lemma str_eqb_eq (a b : str) : str_eqb a b = true <-> a = b.
Proof.
  revert b; induction a as [|c a IH]; intros [|d b]; simpl;
    try (split; [discriminate | congruence]); try tauto.
  rewrite andb_true_iff, N.eqb_eq, IH.
  split; [intros [-> ->]; reflexivity | intros H; inversion H; auto].
Qed.

Lemma str_eqb_refl (a : str) : str_eqb a a = true.
Proof. apply str_eqb_eq; reflexivity. Qed.

Lemma startswith_spec (p s : str) :
  startswith p s = true <-> exists t, s = p ++ t.
Proof.
  revert s; induction p as [|c p IH]; intros s; simpl.
  - split; [intros _; exists s; reflexivity | reflexivity].
  - destruct s as [|d s].
    + split; [discriminate | intros [t Ht]; discriminate].
    + rewrite andb_true_iff, N.eqb_eq, IH. split.
      * intros [-> [t ->]]. exists t; reflexivity.
      * intros [t Ht]. inversion Ht; subst. split; [reflexivity | eauto].
Qed.

(** [sub in s] holds exactly when [sub] occurs in [s]. *)
Lemma contains_spec (sub s : str) :
  contains sub s = true <-> exists a b, s = a ++ sub ++ b.
Proof.
  induction s as [|c s IH].
  - cbn [contains]. rewrite orb_false_r, startswith_spec. split.
    + intros [t Ht]. exists [], t. exact Ht.
    + intros [a [b Hab]]. destruct a; [eauto | discriminate].
  - cbn [contains]. rewrite orb_true_iff, startswith_spec, IH. split.
    + intros [[t Ht] | [a [b Hab]]].
      * exists [], t. exact Ht.
      * exists (c :: a), b. simpl. congruence.
    + intros [[|d a] [b Hab]].
      * left. exists b. exact Hab.
      * right. inversion Hab; subst. eauto.
Qed.

Lemma contains_self_app (pre sub post : str) :
  contains sub (pre ++ sub ++ post) = true.
Proof. apply contains_spec; eauto. Qed.

Lemma split_not_nil (sep : char) (s : str) : split sep s <> [].
Proof.
  destruct s as [|c s]; simpl; [discriminate|].
  destruct (c =? sep)%N; [discriminate|].
  destruct (split sep s); discriminate.
Qed.

(** Splitting loses nothing: joining the fields gives the text back. *)
Lemma join_split (sep : char) (s : str) : join [sep] (split sep s) = s.
Proof.
  induction s as [|c s IH]; [reflexivity|].
  simpl. destruct (N.eqb_spec c sep) as [->|Hne].
  - pose proof (split_not_nil sep s) as Hnn.
    destruct (split sep s) as [|f fs]; [congruence|].
    cbn [join app] in *. rewrite IH. reflexivity.
  - pose proof (split_not_nil sep s) as Hnn.
    destruct (split sep s) as [|f fs]; [congruence|].
    destruct fs as [|g fs]; cbn [join app] in *; rewrite <- IH; reflexivity.
Qed.

Lemma split_fields_no_sep (sep : char) (s : str) :
  Forall (fun f => ~ In sep f) (split sep s).
Proof.
  induction s as [|c s IH]; simpl.
  - constructor; [intros [] | constructor].
  - destruct (N.eqb_spec c sep) as [->|Hne].
    + constructor; [intros [] | exact IH].
    + destruct (split sep s) as [|f fs].
      * constructor; [|constructor]. intros [H|[]]; congruence.
      * inversion IH; subst. constructor; [|assumption].
        intros [H|H]; [congruence | contradiction].
Qed.

Lemma split_no_sep (sep : char) (s : str) :
  ~ In sep s -> split sep s = [s].
Proof.
  induction s as [|c s IH]; intros Hnot; [reflexivity|].
  simpl. destruct (N.eqb_spec c sep) as [->|Hne].
  - exfalso; apply Hnot; left; reflexivity.
  - rewrite IH; [reflexivity|]. intros H; apply Hnot; right; exact H.
Qed.

Lemma split_app_sep (sep : char) (a b : str) :
  split sep (a ++ sep :: b) = split sep a ++ split sep b.
Proof.
  induction a as [|c a IH]; simpl.
  - rewrite N.eqb_refl. reflexivity.
  - destruct (c =? sep)%N.
    + rewrite IH. reflexivity.
    + rewrite IH. pose proof (split_not_nil sep a) as Hnn.
      destruct (split sep a); [congruence | reflexivity].
Qed.

(** The last field is what follows the last separator. *)
Lemma split_last_suffix (sep : char) (a f : str) :
  ~ In sep f -> last (split sep (a ++ sep :: f)) [] = f.
Proof.
  intros Hf. rewrite split_app_sep, (split_no_sep sep f Hf).
  apply last_last.
Qed.

(** [l[-1]] of a list that is not empty. *)
Lemma last_item_last {A : Type} (l : list A) (d : A) :
  l <> [] -> last_item l = Ret (last l d).
Proof.
  intros Hl. destruct (exists_last Hl) as [l' [x ->]].
  unfold last_item. rewrite rev_app_distr, last_last. reflexivity.
Qed.

Lemma last_item_split (sep : char) (s : str) :
  last_item (split sep s) = Ret (last (split sep s) []).
Proof. apply last_item_last, split_not_nil. Qed.

Lemma lstrip_spec (s : str) :
  exists w, s = w ++ lstrip s /\ forallb isspace w = true.
Proof.
  induction s as [|c s [w [Hs Hw]]].
  - exists []. split; reflexivity.
  - simpl. destruct (isspace c) eqn:Hc.
    + exists (c :: w). simpl. rewrite Hc, Hw. split; [congruence | reflexivity].
    + exists []. split; reflexivity.
Qed.

Lemma lstrip_head (s : str) :
  match lstrip s with [] => True | c :: _ => isspace c = false end.
Proof.
  induction s as [|c s IH]; simpl; [exact I|].
  destruct (isspace c) eqn:Hc; [exact IH | exact Hc].
Qed.

Lemma forallb_rev {A : Type} (f : A -> bool) (l : list A) :
  forallb f (rev l) = forallb f l.
Proof.
  induction l as [|x l IH]; [reflexivity|].
  simpl. rewrite forallb_app, IH. simpl. rewrite andb_true_r, andb_comm.
  reflexivity.
Qed.

Lemma rstrip_spec (s : str) :
  exists w, s = rstrip s ++ w /\ forallb isspace w = true.
Proof.
  unfold rstrip. destruct (lstrip_spec (rev s)) as [w [Hs Hw]].
  exists (rev w). split.
  - rewrite <- rev_app_distr, <- Hs, rev_involutive. reflexivity.
  - rewrite forallb_rev. exact Hw.
Qed.

(** [strip] removes a run of whitespace at each end and nothing else. *)
Lemma strip_spec (s : str) :
  exists w1 w2, s = w1 ++ strip s ++ w2
                /\ forallb isspace w1 = true /\ forallb isspace w2 = true.
Proof.
  unfold strip. destruct (lstrip_spec s) as [w1 [H1 Hw1]].
  destruct (rstrip_spec (lstrip s)) as [w2 [H2 Hw2]].
  exists w1, w2. repeat split; try assumption.
  rewrite <- H2. exact H1.
Qed.

Lemma strip_incl (s : str) (c : char) : In c (strip s) -> In c s.
Proof.
  destruct (strip_spec s) as [w1 [w2 [Hs _]]]. intros Hc.
  rewrite Hs. apply in_or_app. right. apply in_or_app. left. exact Hc.
Qed.

(** The stripped text neither starts nor ends with whitespace. *)
Lemma strip_ends (s : str) :
  match strip s with [] => True | c :: _ => isspace c = false end
  /\ match rev (strip s) with [] => True | c :: _ => isspace c = false end.
Proof.
  unfold strip, rstrip. rewrite rev_involutive. split.
  - pose proof (lstrip_head s) as Hh.
    pose proof (lstrip_head (rev (lstrip s))) as Hr.
    destruct (lstrip_spec (rev (lstrip s))) as [w [Hw Hsp]].
    destruct (lstrip s) as [|c t] eqn:Hl; [exact I|].
    assert (Hrev : c :: t = rev (lstrip (rev (c :: t))) ++ rev w).
    { rewrite <- rev_app_distr, <- Hw, rev_involutive. reflexivity. }
    destruct (rev (lstrip (rev (c :: t)))) as [|d u] eqn:Hd; [exact I|].
    simpl in Hrev. inversion Hrev; subst. exact Hh.
  - apply lstrip_head.
Qed.

Lemma lstrip_app_space (w s : str) :
  forallb isspace w = true -> lstrip (w ++ s) = lstrip s.
Proof.
  induction w as [|c w IH]; simpl; [reflexivity|].
  intros Hw. apply andb_true_iff in Hw as [Hc Hw]. rewrite Hc. auto.
Qed.

Lemma lstrip_space_app (a w : str) :
  forallb isspace w = true ->
  lstrip (a ++ w) = match lstrip a with [] => [] | _ :: _ => lstrip a ++ w end.
Proof.
  intros Hw. induction a as [|c a IH]; simpl.
  - rewrite <- (app_nil_r w) at 1. apply lstrip_app_space. exact Hw.
  - destruct (isspace c); [exact IH | reflexivity].
Qed.

Lemma rstrip_app_space (s w : str) :
  forallb isspace w = true -> rstrip (s ++ w) = rstrip s.
Proof.
  intros Hw. unfold rstrip. rewrite rev_app_distr, lstrip_app_space;
    [reflexivity | rewrite forallb_rev; exact Hw].
Qed.

Lemma strip_app_space_l (w s : str) :
  forallb isspace w = true -> strip (w ++ s) = strip s.
Proof. intros Hw. unfold strip. rewrite lstrip_app_space; auto. Qed.

Lemma strip_app_space_r (s w : str) :
  forallb isspace w = true -> strip (s ++ w) = strip s.
Proof.
  intros Hw. unfold strip. rewrite (lstrip_space_app s w Hw).
  destruct (lstrip s) as [|c t]; [reflexivity|].
  apply rstrip_app_space. exact Hw.
Qed.

Lemma strip_idempotent (s : str) : strip (strip s) = strip s.
Proof.
  destruct (strip_spec s) as [w1 [w2 [Hs [Hw1 Hw2]]]].
  rewrite Hs at 2.
  rewrite strip_app_space_l, strip_app_space_r; auto.
Qed.

Lemma space_not_colon (w : str) : forallb isspace w = true -> ~ In COLON w.
Proof.
  intros Hw Hin. rewrite forallb_forall in Hw.
  specialize (Hw COLON Hin). discriminate Hw.
Qed.

(** A text that has the separator has a last one. *)
Lemma last_occurrence (sep : char) (s : str) :
  In sep s -> exists a f, s = a ++ sep :: f /\ ~ In sep f.
Proof.
  induction s as [|c s IH]; intros Hin; [destruct Hin|].
  destruct (in_dec N.eq_dec sep s) as [Hs|Hs].
  - destruct (IH Hs) as [a [f [-> Hf]]]. exists (c :: a), f. auto.
  - destruct Hin as [->|Hin]; [|contradiction]. exists [], s. auto.
Qed.

(** The last field of a split, in full: the text when it has no
    separator, what follows the last separator when it has one. *)
Lemma last_field_cases (sep : char) (s : str) :
  (~ In sep s /\ last (split sep s) [] = s)
  \/ (exists a f, s = a ++ sep :: f /\ ~ In sep f
                  /\ last (split sep s) [] = f).
Proof.
  destruct (in_dec N.eq_dec sep s) as [Hs|Hs].
  - right. destruct (last_occurrence sep s Hs) as [a [f [-> Hf]]].
    exists a, f. repeat split; auto. apply split_last_suffix. exact Hf.
  - left. split; [exact Hs|]. rewrite split_no_sep; auto.
Qed.

(** Trimming the line first or the field last differ by the whitespace
    in front of the field only. *)
Lemma strip_last_field (item : str) :
  strip (last (split COLON (strip item)) [])
  = strip (last (split COLON item) []).
Proof.
  destruct (strip_spec item) as [w1 [w2 [Hitem [Hw1 Hw2]]]].
  pose proof (space_not_colon w1 Hw1) as Hc1.
  pose proof (space_not_colon w2 Hw2) as Hc2.
  pose proof (strip_idempotent item) as Hidem.
  remember (strip item) as t eqn:Et. subst item.
  destruct (last_field_cases COLON t)
    as [[Hnone Hlast] | [a [f [Ht [Hf Hlast]]]]].
  - rewrite Hlast, Hidem. rewrite split_no_sep; [exact Et|].
    intros Hin.
    apply in_app_or in Hin as [Hin|Hin]; [contradiction|].
    apply in_app_or in Hin as [Hin|Hin]; contradiction.
  - rewrite Hlast. rewrite Ht.
    replace (w1 ++ (a ++ COLON :: f) ++ w2)
      with ((w1 ++ a) ++ COLON :: (f ++ w2))
      by (repeat rewrite <- app_assoc; reflexivity).
    rewrite split_last_suffix.
    + symmetry. apply strip_app_space_r. exact Hw2.
    + intros Hin. apply in_app_or in Hin as [Hin|Hin]; contradiction.
Qed.

End StrFacts.

(** ** The result verifier *)

Section Verifier.

Variable h : str.

Lemma hashcat_verify_loop_skip (pre rest : list str) :
  (forall l, In l pre -> contains h l = false) ->
  hashcat_verify_loop h (pre ++ rest) = hashcat_verify_loop h rest.
Proof.
  induction pre as [|l pre IH]; intros Hpre; [reflexivity|].
  simpl. rewrite (Hpre l (or_introl eq_refl)).
  apply IH. intros l' Hl'. apply Hpre. right. exact Hl'.
Qed.

Lemma hashcat_verify_loop_hit (item : str) (post : list str) :
  contains h item = true ->
  hashcat_verify_loop h (item :: post)
  = Ret (Some (last (split COLON (strip item)) [])).
Proof.
  intros Hit. simpl. rewrite Hit, last_item_split. reflexivity.
Qed.

Lemma hashcat_verify_loop_none (items : list str) :
  hashcat_verify_loop h items = Ret None
  <-> forall l, In l items -> contains h l = false.
Proof.
  induction items as [|item rest IH]; simpl.
  - split; [intros _ l [] | reflexivity].
  - destruct (contains h item) eqn:Hit.
    + rewrite last_item_split. split; [discriminate|].
      intros Hall. specialize (Hall item (or_introl eq_refl)).
      congruence.
    + rewrite IH. split.
      * intros Hall l [<-|Hl]; [exact Hit | apply Hall; exact Hl].
      * intros Hall l Hl. apply Hall. right. exact Hl.
Qed.

Lemma hashcat_verify_loop_returns (items : list str) :
  exists r, hashcat_verify_loop h items = Ret r.
Proof.
  induction items as [|item rest IH]; simpl; [eauto|].
  destruct (contains h item); [|exact IH].
  rewrite last_item_split. eauto.
Qed.

(** The documented verifier is the coded one followed by a trim of the
    field. *)
Lemma hashcat_verify_documented_strip (output : str) :
  hashcat_verify_documented h output
  = match hashcat_verify h output with
    | Ret (Some field) => Some (strip field)
    | _ => None
    end.
Proof.
  unfold hashcat_verify_documented, hashcat_verify.
  induction (split LF output) as [|item rest IH]; [reflexivity|].
  simpl. destruct (contains h item); [|exact IH].
  rewrite last_item_split, strip_last_field. reflexivity.
Qed.

End Verifier.

(** C3, as the design document words it, fails: the line is trimmed
    before it is split, so the last field keeps the whitespace that
    follows the last [':'].  For the hash ["h"] and the output ["h: x"] the
    code returns [" x"], not ["x"]. *)
Lemma hashcat_verify_keeps_inner_space :
  ~ (forall _hash output,
       hashcat_verify _hash output
       = Ret (hashcat_verify_documented _hash output)).
Proof.
  intros H. specialize (H (lit "h") (lit "h: x")).
  vm_compute in H. discriminate H.
Qed.

(** C3 (amended): [hashcat_verify] returns absent exactly when no line of
    the output contains the hash; otherwise, for the first line that
    contains it, the line is trimmed of surrounding whitespace, split on
    [':'], and the last field is returned as it is. *)
Theorem hashcat_verify_first_match (_hash output : str) :
  (hashcat_verify _hash output = Ret None
   <-> forall l, In l (split LF output) -> contains _hash l = false)
  /\ forall pre item post,
       split LF output = pre ++ item :: post ->
       (forall l, In l pre -> contains _hash l = false) ->
       contains _hash item = true ->
       hashcat_verify _hash output
       = Ret (Some (last (split COLON (strip item)) [])).
Proof.
  unfold hashcat_verify. split.
  - apply hashcat_verify_loop_none.
  - intros pre item post Hlines Hpre Hit. rewrite Hlines.
    rewrite (hashcat_verify_loop_skip _hash pre (item :: post) Hpre).
    apply hashcat_verify_loop_hit. exact Hit.
Qed.

Lemma hashcat_verify_first_match_witness :
  hashcat_verify (lit "abc123")
    (lit "Session: x" ++ [LF] ++ lit "abc123:salt: secret123 " ++ [LF]
     ++ lit "abc123:salt:other")
  = Ret (Some (lit " secret123")).
Proof.
  apply (proj2 (hashcat_verify_first_match (lit "abc123")
                  (lit "Session: x" ++ [LF] ++ lit "abc123:salt: secret123 "
                   ++ [LF] ++ lit "abc123:salt:other"))
           [lit "Session: x"] (lit "abc123:salt: secret123 ")
           [lit "abc123:salt:other"]).
  - reflexivity.
  - intros l [<-|[]]. reflexivity.
  - reflexivity.
Defined.

(** C10: [hashcat_verify] returns on every input, it never raises: a
    split on [':'] has at least one field, so the index [-1] is in range;
    and when the first matching line has no [':'] the whole trimmed line is
    returned, not absent. *)
Theorem hashcat_verify_never_raises (_hash output : str) :
  (exists r, hashcat_verify _hash output = Ret r)
  /\ (forall s, exists field, last_item (split COLON s) = Ret field)
  /\ forall pre item post,
       split LF output = pre ++ item :: post ->
       (forall l, In l pre -> contains _hash l = false) ->
       contains _hash item = true ->
       ~ In COLON item ->
       hashcat_verify _hash output = Ret (Some (strip item)).
Proof.
  split; [apply hashcat_verify_loop_returns|].
  split; [intros s; rewrite last_item_split; eauto|].
  intros pre item post Hlines Hpre Hit Hcolon.
  unfold hashcat_verify. rewrite Hlines.
  rewrite (hashcat_verify_loop_skip _hash pre (item :: post) Hpre).
  rewrite (hashcat_verify_loop_hit _hash item post Hit).
  rewrite split_no_sep; [reflexivity|].
  intros Hin. apply Hcolon. apply strip_incl. exact Hin.
Qed.

Lemma hashcat_verify_never_raises_witness :
  hashcat_verify (lit "abc123") (lit "noise" ++ [LF] ++ lit "  abc123 ")
  = Ret (Some (lit "abc123")).
Proof.
  apply (proj2 (proj2 (hashcat_verify_never_raises (lit "abc123")
                         (lit "noise" ++ [LF] ++ lit "  abc123 ")))
           [lit "noise"] (lit "  abc123 ") []).
  - reflexivity.
  - intros l [<-|[]]. reflexivity.
  - reflexivity.
  - vm_compute. intros H. repeat (destruct H as [H|H]; [discriminate H|]).
    exact H.
Defined.

(** ** The queue is the orchestrator's

    No step of the runner reaches the queue: each primitive it is made of
    keeps it, and so do the ways they are combined. *)

Section Frame.

Context {A B : Type}.

Lemma keeps_ret (a : A) : keeps_queue (ret a).
Proof. intros w. reflexivity. Qed.

Lemma keeps_lift (o : outcome A) : keeps_queue (lift o).
Proof. intros w. reflexivity. Qed.

Lemma keeps_bind (m : M A) (k : A -> M B) :
  keeps_queue m -> (forall a, keeps_queue (k a)) -> keeps_queue (bind m k).
Proof.
  intros Hm Hk w. unfold bind. specialize (Hm w).
  destruct (m w) as [[a|e] w1]; cbn [snd] in *.
  - rewrite Hk. exact Hm.
  - exact Hm.
Qed.

Lemma keeps_try_except (body : M A) (handler : exn -> option (M A)) :
  keeps_queue body ->
  (forall e h, handler e = Some h -> keeps_queue h) ->
  keeps_queue (try_except body handler).
Proof.
  intros Hbody Hh w. unfold try_except. specialize (Hbody w).
  destruct (body w) as [[a|e] w1]; cbn [snd] in *; [exact Hbody|].
  destruct (handler e) as [h|] eqn:He; cbn [snd]; [|exact Hbody].
  rewrite (Hh e h He). exact Hbody.
Qed.

End Frame.

Lemma keeps_emit (ev : event) : keeps_queue (emit ev).
Proof. intros w. reflexivity. Qed.

Lemma keeps_time_time (E : env) : keeps_queue (time_time E).
Proof. intros w. reflexivity. Qed.

Lemma keeps_subprocess_run (E : env) (argv : list str) (timeout : Z) :
  keeps_queue (subprocess_run E argv timeout).
Proof. intros w. reflexivity. Qed.

Ltac frame :=
  unfold logging, print_exc;
  repeat first
    [ apply keeps_ret | apply keeps_lift | apply keeps_emit
    | apply keeps_time_time | apply keeps_subprocess_run
    | apply keeps_bind; [|intros ?]
    | match goal with
      | |- keeps_queue (if ?b then _ else _) => destruct b
      | |- keeps_queue (match ?x with _ => _ end) => destruct x
      end ].

(** [run_hashcat] never touches the queue. *)
Lemma run_hashcat_queue (E : env) (run_id _hash salt mode chars mask : str)
    (timeout : Z) (hashcat_path hashcat_workload_profile session : str) :
  keeps_queue (run_hashcat E run_id _hash salt mode chars mask timeout
                 hashcat_path hashcat_workload_profile session).
Proof.
  unfold run_hashcat. cbv zeta.
  apply keeps_bind; [apply keeps_time_time | intros start_time].
  apply keeps_bind; [apply keeps_emit | intros _].
  apply keeps_try_except.
  - frame.
  - intros e h He.
    destruct e; cbn [is_Exception] in He; inversion He; subst h; frame.
Qed.

(** ** The process runner

    A run that starts in [w] reads the clock at [tick w], starts the child
    at [S (tick w)] and reads the clock again at [S (S (tick w))], on every
    path; [child E (S (tick w)) cmd timeout] is what [subprocess.run]
    answers in that run. *)

Section Runner.

Variable E : env.
Variables run_id _hash salt mode chars mask : str.
Variable timeout : Z.
Variables hashcat_path hashcat_workload_profile session : str.

Let cmd : list str :=
  command hashcat_path _hash salt mode chars mask
    hashcat_workload_profile session.

Let run : M PowResult :=
  run_hashcat E run_id _hash salt mode chars mask timeout
    hashcat_path hashcat_workload_profile session.

(** What [run_hashcat] logs before it starts the child. *)
Let prologue : list event :=
  [ Log INFO (run_id ++ lit ": " ++ RECYCLE ++ lit "  Challenge processing");
    Log TRACE (command_str cmd);
    Spawn cmd timeout ].

(** The two clock readings of a run that starts in [w], and their
    difference. *)
Let elapsed (w : world) : float :=
  PrimFloat.sub (clock E (S (S (tick w)))) (clock E (tick w)).

Let failure_message (cp : CompletedProcess) : str :=
  run_id ++ lit ": " ++ CROSS_MARK ++ lit " Hashcat execution failed with code "
  ++ str_of_int (returncode cp) ++ lit ": " ++ stderr cp.

Let timeout_message (w : world) : str :=
  run_id ++ lit ": " ++ CROSS_MARK ++ lit " Hashcat execution timed out ("
  ++ format_2f E (elapsed w) ++ lit ")".

Let unknown_message (e : exn) : str :=
  (run_id ++ lit ": " ++ CROSS_MARK ++ lit " run_hashcat execution failed")
  ++ lit ": " ++ exn_str e.

Lemma hashcat_verify_empty_output (p : str) :
  hashcat_verify _hash [] = Ret (Some p) -> p = [].
Proof.
  unfold hashcat_verify. cbn [split hashcat_verify_loop].
  destruct (contains _hash []); [|discriminate].
  cbv. congruence.
Qed.

Lemma run_hashcat_found (w : world) (cp : CompletedProcess) (p : str) :
  child E (S (tick w)) cmd timeout = Ret cp ->
  returncode cp = 0%Z ->
  hashcat_verify _hash (stdout cp) = Ret (Some p) ->
  p <> [] ->
  run w
  = (Ret {| password := Some p;
            local_execution_time := elapsed w;
            error := None |},
     advance w 3
       (prologue
        ++ [Log SUCCESS
              (run_id ++ lit ": " ++ CHECK_MARK ++ lit " Challenge " ++ p
               ++ lit " found in " ++ format_2f E (elapsed w)
               ++ lit " seconds !")])).
Proof.
  intros Hchild Hrc Hv Hp.
  assert (Hout : truthy (stdout cp) = true).
  { destruct (stdout cp) eqn:Ho; [|reflexivity].
    exfalso. apply Hp. apply hashcat_verify_empty_output. exact Hv. }
  assert (Htp : truthy p = true) by (destruct p; [congruence | reflexivity]).
  unfold run, run_hashcat, bind, try_except, time_time, logging, emit,
    subprocess_run, ret, lift, advance. cbn [queue tick trace].
  fold cmd. rewrite Hchild, Hrc, Hout. cbn [Z.eqb andb].
  rewrite Hv, Htp. cbn [queue tick trace].
  unfold elapsed, prologue. repeat rewrite <- app_assoc. reflexivity.
Qed.

Lemma run_hashcat_failed (w : world) (cp : CompletedProcess) :
  child E (S (tick w)) cmd timeout = Ret cp ->
  returncode cp <> 0%Z \/ stdout cp = []
  \/ hashcat_verify _hash (stdout cp) = Ret None
  \/ hashcat_verify _hash (stdout cp) = Ret (Some []) ->
  run w
  = (Ret {| password := None;
            local_execution_time := elapsed w;
            error := Some (failure_message cp) |},
     advance w 3 (prologue ++ [Log WARNING (failure_message cp)])).
Proof.
  intros Hchild Hwhy.
  unfold run, run_hashcat, bind, try_except, time_time, logging, emit,
    subprocess_run, ret, lift, advance. cbn [queue tick trace].
  fold cmd. rewrite Hchild.
  assert (Hfail :
    (if (returncode cp =? 0)%Z && truthy (stdout cp)
     then match hashcat_verify _hash (stdout cp) with
          | Ret (Some (_ :: _)) => false
          | _ => true
          end
     else true) = true).
  { destruct Hwhy as [Hrc | [Hout | [Hv | Hv]]].
    - apply Z.eqb_neq in Hrc. rewrite Hrc. reflexivity.
    - rewrite Hout. rewrite andb_false_r. reflexivity.
    - rewrite Hv. destruct (_ && _); reflexivity.
    - rewrite Hv. destruct (_ && _); reflexivity. }
  destruct (hashcat_verify_loop_returns _hash (split LF (stdout cp)))
    as [v Hv]. fold (hashcat_verify _hash (stdout cp)) in Hv.
  rewrite Hv in *.
  destruct ((returncode cp =? 0)%Z && truthy (stdout cp)).
  - destruct v as [[|c p]|]; try discriminate Hfail;
      cbn [truthy queue tick trace];
      unfold elapsed, prologue, failure_message;
      repeat rewrite <- app_assoc; reflexivity.
  - cbn [queue tick trace]. unfold elapsed, prologue, failure_message.
    repeat rewrite <- app_assoc. reflexivity.
Qed.

Lemma run_hashcat_timed_out (w : world) (text : str) :
  child E (S (tick w)) cmd timeout = Raise (TimeoutExpired text) ->
  run w
  = (Ret {| password := None;
            local_execution_time := elapsed w;
            error := Some (timeout_message w) |},
     advance w 3 (prologue ++ [Log WARNING (timeout_message w)])).
Proof.
  intros Hchild.
  unfold run, run_hashcat, bind, try_except, time_time, logging, emit,
    subprocess_run, ret, lift, advance. cbn [queue tick trace].
  fold cmd. rewrite Hchild. cbn [queue tick trace].
  unfold timeout_message, elapsed, prologue.
  repeat rewrite <- app_assoc. reflexivity.
Qed.

Lemma run_hashcat_caught (w : world) (e : exn) :
  child E (S (tick w)) cmd timeout = Raise e ->
  is_Exception e = true ->
  (forall text, e <> TimeoutExpired text) ->
  run w
  = (Ret {| password := None;
            local_execution_time := elapsed w;
            error := Some (unknown_message e) |},
     advance w 3
       (prologue ++ [PrintExc e; Log WARNING (unknown_message e)])).
Proof.
  intros Hchild Hexc Hnt.
  unfold run, run_hashcat, bind, try_except, time_time, logging, print_exc,
    emit, subprocess_run, ret, lift, advance. cbn [queue tick trace].
  fold cmd. rewrite Hchild.
  destruct e; try discriminate Hexc;
    try (exfalso; eapply Hnt; reflexivity);
    cbn [is_Exception queue tick trace];
    unfold unknown_message, elapsed, prologue;
    repeat rewrite <- app_assoc; reflexivity.
Qed.

Lemma run_hashcat_uncaught (w : world) (e : exn) :
  child E (S (tick w)) cmd timeout = Raise e ->
  is_Exception e = false ->
  run w = (Raise e, advance w 2 prologue).
Proof.
  intros Hchild Hexc.
  unfold run, run_hashcat, bind, try_except, time_time, logging, print_exc,
    emit, subprocess_run, ret, lift, advance. cbn [queue tick trace].
  fold cmd. rewrite Hchild.
  destruct e; try discriminate Hexc; cbn [is_Exception];
    unfold prologue; repeat rewrite <- app_assoc; reflexivity.
Qed.


(** A completed child is a find or a failure, nothing else. *)
Lemma completed_cases (cp : CompletedProcess) :
  (exists c p, returncode cp = 0%Z
               /\ hashcat_verify _hash (stdout cp) = Ret (Some (c :: p)))
  \/ (returncode cp <> 0%Z \/ stdout cp = []
      \/ hashcat_verify _hash (stdout cp) = Ret None
      \/ hashcat_verify _hash (stdout cp) = Ret (Some [])).
Proof.
  destruct (Z.eq_dec (returncode cp) 0) as [Hrc|Hrc]; [|right; left; exact Hrc].
  destruct (hashcat_verify_loop_returns _hash (split LF (stdout cp)))
    as [v Hv]. fold (hashcat_verify _hash (stdout cp)) in Hv.
  destruct v as [[|c p]|]; [right | left | right]; eauto 6.
Qed.

Ltac embedded pre post :=
  apply contains_spec; exists pre, post;
  repeat rewrite <- app_assoc; rewrite ?app_nil_r; reflexivity.

(** C4: [run_hashcat] returns a success, the password being the extracted
    plaintext and the error absent, exactly when the child exited with
    code 0, its stdout is not empty and [hashcat_verify] extracts a
    plaintext that is not empty; a child that exits with code 0 and whose
    extracted plaintext is empty or absent is reported as a failure. *)
Theorem run_hashcat_success_iff (w : world) :
  (forall p,
     (exists r w', run w = (Ret r, w')
                   /\ password r = Some p /\ error r = None)
     <-> (exists cp, child E (S (tick w)) cmd timeout = Ret cp
                     /\ returncode cp = 0%Z
                     /\ stdout cp <> []
                     /\ hashcat_verify _hash (stdout cp) = Ret (Some p)
                     /\ p <> []))
  /\ (forall cp,
        child E (S (tick w)) cmd timeout = Ret cp ->
        returncode cp = 0%Z ->
        hashcat_verify _hash (stdout cp) = Ret None
        \/ hashcat_verify _hash (stdout cp) = Ret (Some []) ->
        exists r w', run w = (Ret r, w')
                     /\ password r = None /\ error r <> None).
Proof.
  split.
  - intros p. split.
    + intros [r [w' [Hrun [Hpw Herr]]]].
      destruct (child E (S (tick w)) cmd timeout) as [cp|e] eqn:Hchild.
      * exists cp. split; [reflexivity|].
        destruct (completed_cases cp) as [[c [q [Hrc Hv]]] | Hwhy].
        -- rewrite (run_hashcat_found w cp (c :: q) Hchild Hrc Hv) in Hrun
             by discriminate.
           inversion Hrun; subst r w'; cbn [password] in Hpw.
           inversion Hpw; subst p.
           repeat split; [exact Hrc | | exact Hv | discriminate].
           intros Hout. rewrite Hout in Hv.
           apply hashcat_verify_empty_output in Hv. discriminate Hv.
        -- rewrite (run_hashcat_failed w cp Hchild Hwhy) in Hrun.
           inversion Hrun; subst r w'. discriminate Hpw.
      * destruct (is_Exception e) eqn:Hexc.
        -- destruct e; try discriminate Hexc;
             try (rewrite (run_hashcat_timed_out w _ Hchild) in Hrun;
                  inversion Hrun; subst r w'; discriminate Hpw);
             (rewrite (run_hashcat_caught w _ Hchild Hexc) in Hrun
                by (intros; discriminate));
             inversion Hrun; subst r w'; discriminate Hpw.
        -- rewrite (run_hashcat_uncaught w e Hchild Hexc) in Hrun.
           discriminate Hrun.
    + intros [cp [Hchild [Hrc [_ [Hv Hp]]]]].
      rewrite (run_hashcat_found w cp p Hchild Hrc Hv Hp).
      eexists; eexists. split; [reflexivity|]. split; reflexivity.
  - intros cp Hchild Hrc Hv.
    rewrite (run_hashcat_failed w cp Hchild).
    + eexists; eexists. split; [reflexivity|]. split; [reflexivity|].
      discriminate.
    + right; right. exact Hv.
Qed.

(** C5: when the child exits with a code that is not 0, or exits with
    code 0 and [hashcat_verify] finds no match, [run_hashcat] returns a
    result without password whose error message embeds the run id, the
    exit code and the captured stderr. *)
Theorem run_hashcat_tool_failure (w : world) (cp : CompletedProcess) :
  child E (S (tick w)) cmd timeout = Ret cp ->
  returncode cp <> 0%Z \/ hashcat_verify _hash (stdout cp) = Ret None ->
  exists w' msg,
    run w = (Ret {| password := None;
                    local_execution_time := elapsed w;
                    error := Some msg |}, w')
    /\ msg = run_id ++ lit ": " ++ CROSS_MARK
             ++ lit " Hashcat execution failed with code "
             ++ str_of_int (returncode cp) ++ lit ": " ++ stderr cp
    /\ contains run_id msg = true
    /\ contains (str_of_int (returncode cp)) msg = true
    /\ contains (stderr cp) msg = true.
Proof.
  intros Hchild Hwhy.
  rewrite (run_hashcat_failed w cp Hchild) by tauto.
  eexists; eexists. split; [reflexivity|]. split; [reflexivity|].
  unfold failure_message. repeat split.
  - embedded (@nil char)
      (lit ": " ++ CROSS_MARK ++ lit " Hashcat execution failed with code "
       ++ str_of_int (returncode cp) ++ lit ": " ++ stderr cp).
  - embedded
      (run_id ++ lit ": " ++ CROSS_MARK
       ++ lit " Hashcat execution failed with code ")
      (lit ": " ++ stderr cp).
  - embedded
      (run_id ++ lit ": " ++ CROSS_MARK
       ++ lit " Hashcat execution failed with code "
       ++ str_of_int (returncode cp) ++ lit ": ")
      (@nil char).
Qed.

(** C6: when the child outlives the timeout, [run_hashcat] returns a
    result without password, with the elapsed time, and with an error
    message that says the execution timed out and embeds the run id. *)
Theorem run_hashcat_timeout (w : world) (text : str) :
  child E (S (tick w)) cmd timeout = Raise (TimeoutExpired text) ->
  exists w' msg,
    run w = (Ret {| password := None;
                    local_execution_time :=
                      PrimFloat.sub (clock E (S (S (tick w))))
                        (clock E (tick w));
                    error := Some msg |}, w')
    /\ msg = run_id ++ lit ": " ++ CROSS_MARK
             ++ lit " Hashcat execution timed out ("
             ++ format_2f E (PrimFloat.sub (clock E (S (S (tick w))))
                               (clock E (tick w)))
             ++ lit ")"
    /\ contains run_id msg = true
    /\ contains (lit "timed out") msg = true.
Proof.
  intros Hchild. rewrite (run_hashcat_timed_out w text Hchild).
  eexists; eexists. split; [reflexivity|]. split; [reflexivity|].
  unfold timeout_message. split.
  - embedded (@nil char)
      (lit ": " ++ CROSS_MARK ++ lit " Hashcat execution timed out ("
       ++ format_2f E (elapsed w) ++ lit ")").
  - embedded
      (run_id ++ lit ": " ++ CROSS_MARK ++ lit " Hashcat execution ")
      (lit " (" ++ format_2f E (elapsed w) ++ lit ")").
Qed.

(** C8: on every outcome of [run_hashcat] (success, failure reported by
    the tool, timeout, unexpected failure) the result carries in
    [local_execution_time] the difference of two clock readings: the one
    taken when the run is entered and the one taken at the outcome. *)
Theorem run_hashcat_execution_time (w : world) :
  catchable (child E (S (tick w)) cmd timeout) ->
  exists r w',
    run w = (Ret r, w')
    /\ local_execution_time r
       = PrimFloat.sub (clock E (S (S (tick w)))) (clock E (tick w))
    /\ fst (time_time E w) = Ret (clock E (tick w))
    /\ tick w' = 3 + tick w.
Proof.
  intros Hcatch.
  destruct (child E (S (tick w)) cmd timeout) as [cp|e] eqn:Hchild.
  - destruct (completed_cases cp) as [[c [q [Hrc Hv]]] | Hwhy].
    + rewrite (run_hashcat_found w cp (c :: q) Hchild Hrc Hv) by discriminate.
      eexists; eexists. repeat split.
    + rewrite (run_hashcat_failed w cp Hchild Hwhy).
      eexists; eexists. repeat split.
  - cbn [catchable] in Hcatch.
    destruct e; try discriminate Hcatch;
      try (rewrite (run_hashcat_timed_out w _ Hchild);
           eexists; eexists; repeat split);
      (rewrite (run_hashcat_caught w _ Hchild Hcatch)
         by (intros; discriminate));
      eexists; eexists; repeat split.
Qed.

(** C9: on every run the child is started once, with the argument vector
    [hashcat_path], ["<hash>:<salt>"], [-a 3], [-D 2], [-m <mode>],
    [-1 <charset>], [<mask>], [-w <workload_profile>],
    [--session <token>], [--optimized-kernel-enable], in that order; the
    vector reaches the child as a list, and the shell-quoted text of it is
    only logged. *)
Theorem run_hashcat_argument_vector (w : world) :
  let argv :=
    [ hashcat_path; _hash ++ [COLON] ++ salt;
      lit "-a"; lit "3"; lit "-D"; lit "2";
      lit "-m"; mode; lit "-1"; chars; mask;
      lit "-w"; hashcat_workload_profile;
      lit "--session"; session; lit "--optimized-kernel-enable" ] in
  exists greeting rest,
    trace (snd (run w))
    = trace w
      ++ [Log INFO greeting;
          Log TRACE (join [SPACE] (map shlex_quote argv));
          Spawn argv timeout]
      ++ rest
    /\ forallb (fun ev => negb (is_spawn ev)) rest = true.
Proof.
  intros argv.
  assert (Hargv : cmd = argv) by reflexivity.
  destruct (child E (S (tick w)) cmd timeout) as [cp|e] eqn:Hchild.
  - destruct (completed_cases cp) as [[c [q [Hrc Hv]]] | Hwhy].
    + rewrite (run_hashcat_found w cp (c :: q) Hchild Hrc Hv) by discriminate.
      eexists; eexists. split; [reflexivity | reflexivity].
    + rewrite (run_hashcat_failed w cp Hchild Hwhy).
      eexists; eexists. split; [reflexivity | reflexivity].
  - destruct (is_Exception e) eqn:Hexc.
    + destruct e; try discriminate Hexc;
        try (rewrite (run_hashcat_timed_out w _ Hchild);
             eexists; eexists; split; reflexivity);
        (rewrite (run_hashcat_caught w _ Hchild Hexc)
           by (intros; discriminate));
        eexists; eexists; split; reflexivity.
    + rewrite (run_hashcat_uncaught w e Hchild Hexc).
      eexists; exists []. split; reflexivity.
Qed.

End Runner.

(** ** The orchestrator *)

Section Orchestrator.

Variable E : env.
Variables run_id _hash salt mode chars mask : str.
Variables hashcat_path hashcat_workload_profile : str.

(** The session token of a dispatch that starts in [w]. *)
Let token (w : world) : str := replace HYPHEN [] (uuid4 E (tick w)).

(** The world in which the runner is entered. *)
Let entered (w : world) : world :=
  {| queue := queue w ++ [run_id]; tick := S (tick w); trace := trace w |}.

Let runner (w : world) : M PowResult :=
  run_hashcat E run_id _hash salt mode chars mask (pow_timeout E)
    hashcat_path hashcat_workload_profile (token w).

(** What [subprocess.run] answers in a dispatch that starts in [w]. *)
Let answer (w : world) : outcome CompletedProcess :=
  child E (S (S (tick w)))
    (command hashcat_path _hash salt mode chars mask
       hashcat_workload_profile (token w))
    (pow_timeout E).

Lemma remove_first_appended (x : str) (q : list str) :
  exists q', remove_first x (q ++ [x]) = Some q'
             /\ List.length q' = List.length q
             /\ (~ In x q -> q' = q).
Proof.
  induction q as [|y q [q' [Hrm [Hlen Hsame]]]]; simpl.
  - rewrite str_eqb_refl. exists []. auto.
  - destruct (str_eqb y x) eqn:Hyx.
    + apply str_eqb_eq in Hyx. subst y. exists (q ++ [x]). repeat split.
      * rewrite length_app. simpl. lia.
      * intros Hnot. exfalso. apply Hnot. left. reflexivity.
    + rewrite Hrm. exists (y :: q'). repeat split.
      * simpl. congruence.
      * intros Hnot. rewrite Hsame; [reflexivity|].
        intros Hin. apply Hnot. right. exact Hin.
Qed.

(** A dispatch is: register, run, deregister. *)
Lemma run_miner_pow_steps (opts : str) (w : world) :
  run_miner_pow E run_id _hash salt mode chars mask
    hashcat_path hashcat_workload_profile opts w
  = let (o, w2) := runner w (entered w) in
    match remove_first run_id (queue w2) with
    | Some q' => (o, {| queue := q'; tick := tick w2; trace := trace w2 |})
    | None =>
        (Raise (ValueError (lit "deque.remove(x): x not in deque")), w2)
    end.
Proof.
  unfold run_miner_pow, try_finally, bind, queue_append, uuid_uuid4,
    queue_remove, runner, entered, token. cbn [queue tick trace].
  destruct (run_hashcat _ _ _ _ _ _ _ _ _ _ _ _) as [[r|e] w2];
    destruct (remove_first run_id (queue w2)); reflexivity.
Qed.

(** What [except Exception] does not catch ([KeyboardInterrupt],
    [SystemExit]) leaves the dispatch as it came, after the cleanup. *)
Lemma run_miner_pow_propagates (opts : str) (w : world) (e : exn) :
  answer w = Raise e ->
  is_Exception e = false ->
  exists w',
    run_miner_pow E run_id _hash salt mode chars mask
      hashcat_path hashcat_workload_profile opts w = (Raise e, w')
    /\ List.length (queue w') = List.length (queue w).
Proof.
  intros Hchild Hexc. rewrite run_miner_pow_steps.
  destruct (remove_first_appended run_id (queue w)) as [q' [Hrm [Hlen _]]].
  unfold answer in Hchild.
  change (S (S (tick w))) with (S (tick (entered w))) in Hchild.
  unfold runner.
  rewrite (run_hashcat_uncaught E run_id _hash salt mode chars mask
             (pow_timeout E) hashcat_path hashcat_workload_profile
             (token w) (entered w) e Hchild Hexc).
  cbn [advance queue entered]. rewrite Hrm.
  eexists. split; [reflexivity | exact Hlen].
Qed.



(** C7: the extended options have no effect.  Two dispatches that differ
    in [hashcat_extended_options] only, in the same world and with the
    same environment, return the same result and leave the same world, the
    argument vector given to the child included. *)
Theorem run_miner_pow_ignores_extended_options (opts1 opts2 : str)
    (w : world) :
  run_miner_pow E run_id _hash salt mode chars mask
    hashcat_path hashcat_workload_profile opts1 w
  = run_miner_pow E run_id _hash salt mode chars mask
      hashcat_path hashcat_workload_profile opts2 w.
Proof.
  rewrite (run_miner_pow_steps opts1), (run_miner_pow_steps opts2).
  reflexivity.
Qed.

End Orchestrator.

(** ** The properties on the fake tool *)

Lemma run_hashcat_success_iff_witness :
  exists r w',
    run_fake (Ret found_secret) idle = (Ret r, w')
    /\ password r = Some (lit "secret123") /\ error r = None.
Proof.
  apply (proj2 (proj1 (run_hashcat_success_iff (fake_tool (Ret found_secret))
                         (lit "run1") (lit "abc123") (lit "salt") (lit "610")
                         (lit "abc") (lit "?1?1") 30 (lit "hashcat") (lit "3")
                         (lit "6f1c0a2e1b2c4d3e8f4a5b6c7d8e9f00") idle)
                  (lit "secret123"))).
  exists found_secret.
  split; [reflexivity|]. split; [reflexivity|]. split; [discriminate|].
  split; [reflexivity | discriminate].
Defined.

Lemma run_hashcat_tool_failure_witness :
  exists w' msg,
    run_fake (Ret tool_error) idle
    = (Ret {| password := None;
              local_execution_time := 1.5%float;
              error := Some msg |}, w')
    /\ contains (lit "run1") msg = true
    /\ contains (lit "255") msg = true
    /\ contains (lit "No devices found/left.") msg = true.
Proof.
  assert (Hcode0 : returncode tool_error <> 0%Z) by discriminate.
  destruct (run_hashcat_tool_failure (fake_tool (Ret tool_error))
              (lit "run1") (lit "abc123") (lit "salt") (lit "610")
              (lit "abc") (lit "?1?1") 30 (lit "hashcat") (lit "3")
              (lit "6f1c0a2e1b2c4d3e8f4a5b6c7d8e9f00") idle tool_error
              eq_refl (or_introl Hcode0))
    as [w' [msg [Hrun [_ [Hid [Hcode Herr]]]]]].
  exists w', msg. split; [exact Hrun|].
  split; [exact Hid|]. split; [exact Hcode | exact Herr].
Defined.

Lemma run_hashcat_timeout_witness :
  exists w' msg,
    run_fake (Raise (TimeoutExpired (lit "timed out after 30 seconds"))) idle
    = (Ret {| password := None;
              local_execution_time := 1.5%float;
              error := Some msg |}, w')
    /\ contains (lit "run1") msg = true
    /\ contains (lit "timed out") msg = true.
Proof.
  destruct (run_hashcat_timeout
              (fake_tool
                 (Raise (TimeoutExpired (lit "timed out after 30 seconds"))))
              (lit "run1") (lit "abc123") (lit "salt") (lit "610")
              (lit "abc") (lit "?1?1") 30 (lit "hashcat") (lit "3")
              (lit "6f1c0a2e1b2c4d3e8f4a5b6c7d8e9f00") idle
              (lit "timed out after 30 seconds") eq_refl)
    as [w' [msg [Hrun [_ [Hid Hwhat]]]]].
  exists w', msg. split; [exact Hrun|]. split; [exact Hid | exact Hwhat].
Defined.

Lemma run_hashcat_execution_time_witness :
  exists r w',
    run_fake (Raise (OSError (lit "[Errno 2] No such file or directory")))
      idle = (Ret r, w')
    /\ local_execution_time r = 1.5%float.
Proof.
  destruct (run_hashcat_execution_time
              (fake_tool
                 (Raise (OSError (lit "[Errno 2] No such file or directory"))))
              (lit "run1") (lit "abc123") (lit "salt") (lit "610")
              (lit "abc") (lit "?1?1") 30 (lit "hashcat") (lit "3")
              (lit "6f1c0a2e1b2c4d3e8f4a5b6c7d8e9f00") idle eq_refl)
    as [r [w' [Hrun [Htime _]]]].
  exists r, w'. split; [exact Hrun | exact Htime].
Defined.



(** * Further properties *)

(** ** Splitting and joining *)

Section SplitJoin.

Variable sep : char.

Lemma split_join (fs : list str) :
  fs <> [] -> Forall (fun f => ~ In sep f) fs ->
  split sep (join [sep] fs) = fs.
Proof.
  induction fs as [|f fs IH]; intros Hne Hall; [congruence|].
  inversion Hall as [|? ? Hf Hfs]; subst.
  destruct fs as [|g fs].
  - cbn [join]. apply split_no_sep. exact Hf.
  - change (join [sep] (f :: g :: fs))
      with (f ++ sep :: join [sep] (g :: fs)).
    rewrite split_app_sep, (split_no_sep sep f Hf), IH;
      [reflexivity | discriminate | exact Hfs].
Qed.

Lemma join_field_occurs (l : str) (fs : list str) :
  In l fs -> exists a b, join [sep] fs = a ++ l ++ b.
Proof.
  induction fs as [|f fs IH]; intros Hin; [destruct Hin|].
  destruct fs as [|g fs].
  - destruct Hin as [->|[]]. exists [], []. cbn [join app].
    rewrite app_nil_r. reflexivity.
  - change (join [sep] (f :: g :: fs))
      with (f ++ sep :: join [sep] (g :: fs)).
    destruct Hin as [->|Hin].
    + exists [], (sep :: join [sep] (g :: fs)). reflexivity.
    + destruct (IH Hin) as [a [b Hab]]. rewrite Hab.
      exists (f ++ sep :: a), b. rewrite <- app_assoc. reflexivity.
Qed.

(** Every field of a split is a piece of the text. *)
Lemma split_field_occurs (l s : str) :
  In l (split sep s) -> exists a b, s = a ++ l ++ b.
Proof.
  intros Hin. destruct (join_field_occurs l (split sep s) Hin) as [a [b H]].
  rewrite join_split in H. eauto.
Qed.

Lemma first_occurrence (s : str) :
  In sep s -> exists a b, s = a ++ sep :: b /\ ~ In sep a.
Proof.
  induction s as [|c s IH]; intros Hin; [destruct Hin|].
  destruct (N.eq_dec c sep) as [->|Hne].
  - exists [], s. split; [reflexivity | intros []].
  - destruct Hin as [Hc|Hin]; [congruence|].
    destruct (IH Hin) as [a [b [-> Ha]]]. exists (c :: a), b.
    split; [reflexivity|]. intros [H|H]; [congruence | contradiction].
Qed.

(** A piece without separator lies within one field. *)
Lemma occurrence_in_field (h a b : str) :
  ~ In sep h ->
  exists l, In l (split sep (a ++ h ++ b)) /\ contains h l = true.
Proof.
  intros Hh.
  assert (Hleft : exists a1 a2, ~ In sep a2 /\
             forall rest, exists fs,
               split sep (a ++ rest) = fs ++ split sep (a2 ++ rest)
               /\ a = a1 ++ a2).
  { destruct (in_dec N.eq_dec sep a) as [Ha|Ha].
    - destruct (last_occurrence sep a Ha) as [a1 [a2 [-> Ha2]]].
      exists (a1 ++ [sep]), a2. split; [exact Ha2|]. intros rest.
      exists (split sep a1). rewrite <- !app_assoc. cbn [app].
      rewrite split_app_sep. split; reflexivity.
    - exists [], a. split; [exact Ha|]. intros rest. exists []. auto. }
  destruct Hleft as [a1 [a2 [Ha2 Hsplit]]].
  destruct (Hsplit (h ++ b)) as [fs [Hfs _]]. rewrite Hfs.
  destruct (in_dec N.eq_dec sep b) as [Hb|Hb].
  - destruct (first_occurrence b Hb) as [b1 [b2 [-> Hb1]]].
    exists (a2 ++ h ++ b1). split.
    + apply in_or_app. right.
      replace (a2 ++ h ++ b1 ++ sep :: b2)
        with ((a2 ++ h ++ b1) ++ sep :: b2)
        by (rewrite <- !app_assoc; reflexivity).
      rewrite split_app_sep, split_no_sep; [left; reflexivity|].
      intros Hin. apply in_app_or in Hin as [Hin|Hin]; [contradiction|].
      apply in_app_or in Hin as [Hin|Hin]; contradiction.
    + apply contains_self_app.
  - exists (a2 ++ h ++ b). split.
    + apply in_or_app. right. rewrite split_no_sep; [left; reflexivity|].
      intros Hin. apply in_app_or in Hin as [Hin|Hin]; [contradiction|].
      apply in_app_or in Hin as [Hin|Hin]; contradiction.
    + apply contains_self_app.
Qed.

End SplitJoin.

Lemma contains_piece (h l s : str) :
  contains h l = true -> (exists a b, s = a ++ l ++ b) ->
  contains h s = true.
Proof.
  intros Hl [a [b ->]]. apply contains_spec in Hl as [x [y ->]].
  apply contains_spec. exists (a ++ x), (y ++ b).
  rewrite <- !app_assoc. reflexivity.
Qed.

Lemma contains_incl (h s : str) (c : char) :
  contains h s = true -> In c h -> In c s.
Proof.
  intros Hs Hc. apply contains_spec in Hs as [a [b ->]].
  apply in_or_app. right. apply in_or_app. left. exact Hc.
Qed.

(** ** More on the result verifier *)

Section VerifierMore.

Variable h : str.

Lemma hashcat_verify_loop_some (items : list str) (p : str) :
  hashcat_verify_loop h items = Ret (Some p) ->
  exists item, In item items /\ contains h item = true
               /\ p = last (split COLON (strip item)) [].
Proof.
  induction items as [|item rest IH]; simpl; [discriminate|].
  destruct (contains h item) eqn:Hit.
  - rewrite last_item_split. intros Heq. inversion Heq.
    exists item. auto.
  - intros Hrest. destruct (IH Hrest) as [it [Hin Hit']].
    exists it. split; [right; exact Hin | exact Hit'].
Qed.

Lemma last_field_in (s : str) (c : char) :
  In c (last (split COLON s) []) -> In c s.
Proof.
  destruct (last_field_cases COLON s) as [[_ ->] | [a [f [-> [_ ->]]]]].
  - auto.
  - intros Hc. apply in_or_app. right. right. exact Hc.
Qed.

Lemma last_field_no_trailing_space (s : str) :
  no_trailing_space s -> no_trailing_space (last (split COLON s) []).
Proof.
  unfold no_trailing_space.
  destruct (last_field_cases COLON s) as [[_ ->] | [a [f [-> [_ ->]]]]].
  - auto.
  - rewrite rev_app_distr. cbn [rev]. rewrite <- app_assoc.
    destruct (rev f) as [|c r]; [intros _; exact I | auto].
Qed.

(** X1: [hashcat_verify] answers absent exactly when the hash occurs
    nowhere in the output, or holds a newline (no line has one, so such a
    hash matches nothing). *)
Theorem hashcat_verify_absent_iff (output : str) :
  hashcat_verify h output = Ret None
  <-> In LF h \/ contains h output = false.
Proof.
  unfold hashcat_verify. rewrite hashcat_verify_loop_none. split.
  - intros Hall. destruct (in_dec N.eq_dec LF h) as [Hlf|Hlf]; [left; auto|].
    right. destruct (contains h output) eqn:Hc; [|reflexivity].
    apply contains_spec in Hc as [a [b ->]].
    destruct (occurrence_in_field LF h a b Hlf) as [l [Hin Hl]].
    rewrite (Hall l Hin) in Hl. discriminate Hl.
  - intros Hwhy l Hin. destruct (contains h l) eqn:Hl; [|reflexivity].
    exfalso. destruct Hwhy as [Hlf|Hout].
    + pose proof (split_fields_no_sep LF output) as Hno.
      rewrite Forall_forall in Hno. apply (Hno l Hin).
      apply (contains_incl h l LF Hl Hlf).
    + rewrite (contains_piece h l output Hl
                 (split_field_occurs LF l output Hin)) in Hout.
      discriminate Hout.
Qed.

(** X2: whatever [hashcat_verify] returns holds no [':'] and no newline
    and does not end with whitespace: a password with a [':'] in it, or
    with a blank at its end, is never reported whole. *)
Theorem hashcat_verify_plaintext_shape (output p : str) :
  hashcat_verify h output = Ret (Some p) ->
  ~ In COLON p /\ ~ In LF p /\ no_trailing_space p.
Proof.
  unfold hashcat_verify. intros Hv.
  destruct (hashcat_verify_loop_some _ _ Hv) as [item [Hin [_ ->]]].
  split; [|split].
  - pose proof (split_fields_no_sep COLON (strip item)) as Hno.
    rewrite Forall_forall in Hno. apply Hno.
    destruct (exists_last (split_not_nil COLON (strip item))) as [l [x Hl]].
    rewrite Hl, last_last. apply in_or_app. right. left. reflexivity.
  - intros Hlf. apply last_field_in, strip_incl in Hlf.
    pose proof (split_fields_no_sep LF output) as Hno.
    rewrite Forall_forall in Hno. exact (Hno item Hin Hlf).
  - apply last_field_no_trailing_space. apply strip_ends.
Qed.

End VerifierMore.

Lemma hashcat_verify_plaintext_shape_witness :
  ~ In COLON (lit "b") /\ ~ In LF (lit "b") /\ no_trailing_space (lit "b").
Proof.
  apply (hashcat_verify_plaintext_shape (lit "abc123")
           (lit "abc123:salt:a:b ")).
  reflexivity.
Defined.

Section PotfileLine.

Lemma lstrip_keeps_suffix (a p : str) (c : char) :
  isspace c = false -> exists a', lstrip (a ++ c :: p) = a' ++ c :: p.
Proof.
  intros Hc. induction a as [|d a [a' IH]]; simpl.
  - rewrite Hc. exists []. reflexivity.
  - destruct (isspace d); [exists a'; exact IH|].
    exists (d :: a). reflexivity.
Qed.

Lemma rstrip_fixed (s : str) : no_trailing_space s -> rstrip s = s.
Proof.
  unfold no_trailing_space, rstrip. intros Hs.
  rewrite <- (rev_involutive s) at 2.
  destruct (rev s) as [|c r]; [reflexivity|].
  cbn [lstrip]. rewrite Hs. reflexivity.
Qed.

Lemma no_trailing_space_after_colon (a p : str) :
  no_trailing_space p -> no_trailing_space (a ++ COLON :: p).
Proof.
  unfold no_trailing_space. rewrite rev_app_distr. cbn [rev].
  rewrite <- app_assoc. destruct (rev p) as [|c r]; [reflexivity | auto].
Qed.

Lemma strip_keeps_last_field (a p : str) :
  ~ In COLON p -> no_trailing_space p ->
  last (split COLON (strip (a ++ COLON :: p))) [] = p.
Proof.
  intros Hcolon Hend. unfold strip.
  destruct (lstrip_keeps_suffix a p COLON eq_refl) as [a' ->].
  rewrite rstrip_fixed by (apply no_trailing_space_after_colon; exact Hend).
  apply split_last_suffix. exact Hcolon.
Qed.

(** X3: the plaintext of a hashcat result line comes back as it is.  When
    the first line of the output that contains the hash reads
    [<...hash...>:<plaintext>], and the plaintext has no [':'] and does not
    end with whitespace, [hashcat_verify] returns that plaintext; the
    lines after it do not matter. *)
Theorem hashcat_verify_result_line (h a p : str) (pre post : list str) :
  Forall (fun l => ~ In LF l /\ contains h l = false) pre ->
  Forall (fun l => ~ In LF l) post ->
  ~ In LF a -> ~ In LF p ->
  contains h a = true ->
  ~ In COLON p -> no_trailing_space p ->
  hashcat_verify h (join [LF] (pre ++ (a ++ COLON :: p) :: post))
  = Ret (Some p).
Proof.
  intros Hpre Hpost Ha Hp Hit Hcolon Hend. unfold hashcat_verify.
  rewrite split_join.
  - rewrite hashcat_verify_loop_skip.
    + rewrite hashcat_verify_loop_hit.
      * rewrite strip_keeps_last_field; auto.
      * apply (contains_piece h a); [exact Hit|].
        exists [], (COLON :: p). reflexivity.
    + rewrite Forall_forall in Hpre. intros l Hl. apply (Hpre l Hl).
  - destruct pre; discriminate.
  - apply Forall_app. split.
    + eapply Forall_impl; [|exact Hpre]. intros l [Hl _]. exact Hl.
    + constructor; [|exact Hpost]. intros Hin.
      apply in_app_or in Hin as [Hin|[Hin|Hin]];
        [contradiction | discriminate Hin | contradiction].
Qed.

End PotfileLine.

Lemma hashcat_verify_result_line_witness :
  hashcat_verify (lit "abc123")
    (join [LF] ([lit "Session..........: x"]
                ++ (lit "abc123:salt" ++ COLON :: lit " pass word")
                :: [lit "abc123:salt:later"]))
  = Ret (Some (lit " pass word")).
Proof.
  apply (hashcat_verify_result_line (lit "abc123") (lit "abc123:salt")
           (lit " pass word") [lit "Session..........: x"]
           [lit "abc123:salt:later"]).
  - repeat constructor; vm_compute; intuition discriminate.
  - repeat constructor; vm_compute; intuition discriminate.
  - vm_compute; intuition discriminate.
  - vm_compute; intuition discriminate.
  - reflexivity.
  - vm_compute; intuition discriminate.
  - reflexivity.
Defined.

(** ** More on the process runner *)

Section RunnerMore.

Variable E : env.
Variables run_id _hash salt mode chars mask : str.
Variable timeout : Z.
Variables hashcat_path hashcat_workload_profile session : str.

Let cmd : list str :=
  command hashcat_path _hash salt mode chars mask
    hashcat_workload_profile session.

Let run : M PowResult :=
  run_hashcat E run_id _hash salt mode chars mask timeout
    hashcat_path hashcat_workload_profile session.

Let prologue : list event :=
  [ Log INFO (run_id ++ lit ": " ++ RECYCLE ++ lit "  Challenge processing");
    Log TRACE (command_str cmd);
    Spawn cmd timeout ].

Let elapsed_at (t : nat) : float :=
  PrimFloat.sub (clock E (S (S t))) (clock E t).

(** The three ways a run that starts at interaction [t] can go: a find, a
    failure with its warning, an exception that is not caught.  Which one,
    and with what result and events, is decided by [t] alone. *)
Lemma run_hashcat_paths (t : nat) :
  (exists p msg,
     p <> [] /\
     forall w, tick w = t ->
       run w = (Ret {| password := Some p;
                       local_execution_time := elapsed_at t;
                       error := None |},
                advance w 3 (prologue ++ [Log SUCCESS msg])))
  \/ (exists msg mid,
        (mid = [] \/ exists e, mid = [PrintExc e]) /\
        forall w, tick w = t ->
          run w = (Ret {| password := None;
                          local_execution_time := elapsed_at t;
                          error := Some msg |},
                   advance w 3 (prologue ++ mid ++ [Log WARNING msg])))
  \/ (exists e,
        is_Exception e = false /\
        child E (S t) cmd timeout = Raise e /\
        forall w, tick w = t -> run w = (Raise e, advance w 2 prologue)).
Proof.
  destruct (child E (S t) cmd timeout) as [cp|e] eqn:Hchild.
  - destruct (completed_cases _hash cp) as [[c [q [Hrc Hv]]] | Hwhy].
    + left. exists (c :: q). eexists. split; [discriminate|].
      intros w Ht. rewrite <- Ht in Hchild. unfold run.
      rewrite (run_hashcat_found E run_id _hash salt mode chars mask timeout
                 hashcat_path hashcat_workload_profile session
                 w cp (c :: q) Hchild Hrc Hv) by discriminate.
      rewrite Ht. reflexivity.
    + right; left. eexists. exists []. split; [left; reflexivity|].
      intros w Ht. rewrite <- Ht in Hchild. unfold run.
      rewrite (run_hashcat_failed E run_id _hash salt mode chars mask timeout
                 hashcat_path hashcat_workload_profile session
                 w cp Hchild Hwhy).
      rewrite Ht. reflexivity.
  - destruct (is_Exception e) eqn:Hexc.
    + right; left.
      assert (Hcase : (exists text, e = TimeoutExpired text)
                      \/ (forall text, e <> TimeoutExpired text)).
      { destruct e; try (right; intros; discriminate). left. eauto. }
      destruct Hcase as [[text ->] | Hnt].
      * eexists. exists []. split; [left; reflexivity|].
        intros w Ht. rewrite <- Ht in Hchild. unfold run.
        rewrite (run_hashcat_timed_out E run_id _hash salt mode chars mask
                   timeout hashcat_path hashcat_workload_profile session
                   w text Hchild).
        rewrite Ht. reflexivity.
      * eexists. exists [PrintExc e]. split; [right; eauto|].
        intros w Ht. rewrite <- Ht in Hchild. unfold run.
        rewrite (run_hashcat_caught E run_id _hash salt mode chars mask
                   timeout hashcat_path hashcat_workload_profile session
                   w e Hchild Hexc Hnt).
        rewrite Ht. reflexivity.
    + right; right. exists e. split; [exact Hexc|]. split; [reflexivity|].
      intros w Ht. rewrite <- Ht in Hchild. unfold run.
      rewrite (run_hashcat_uncaught E run_id _hash salt mode chars mask
                 timeout hashcat_path hashcat_workload_profile session
                 w e Hchild Hexc).
      reflexivity.
Qed.

(** X4: when [subprocess.run] raises an [Exception] that is not a
    timeout (the tool cannot be started, say), [run_hashcat] prints the
    traceback, logs a warning and returns a result without password whose
    error is ["<run_id>: <cross mark> run_hashcat execution failed: "]
    followed by the text of the exception. *)
Theorem run_hashcat_unexpected_failure (w : world) (e : exn) :
  child E (S (tick w)) cmd timeout = Raise e ->
  is_Exception e = true ->
  (forall text, e <> TimeoutExpired text) ->
  exists w' msg,
    run w = (Ret {| password := None;
                    local_execution_time := elapsed_at (tick w);
                    error := Some msg |}, w')
    /\ msg = run_id ++ lit ": " ++ CROSS_MARK
             ++ lit " run_hashcat execution failed: " ++ exn_str e
    /\ In (PrintExc e) (trace w')
    /\ In (Log WARNING msg) (trace w').
Proof.
  intros Hchild Hexc Hnt. unfold run.
  rewrite (run_hashcat_caught E run_id _hash salt mode chars mask timeout
             hashcat_path hashcat_workload_profile session w e
             Hchild Hexc Hnt).
  eexists; eexists. split; [reflexivity|]. split.
  - repeat rewrite <- app_assoc. reflexivity.
  - cbn [advance trace]. split.
    + apply in_or_app. right. apply in_or_app. right. left. reflexivity.
    + apply in_or_app. right. apply in_or_app. right. right. left.
      reflexivity.
Qed.

(** X5: a result of [run_hashcat] has a password or an error, never both
    and never neither; a password that is there is not empty. *)
Theorem run_hashcat_password_xor_error (w : world) (r : PowResult)
    (w' : world) :
  run w = (Ret r, w') ->
  (exists p, password r = Some p /\ p <> [] /\ error r = None)
  \/ (password r = None /\ exists msg, error r = Some msg).
Proof.
  intros Hrun.
  destruct (run_hashcat_paths (tick w))
    as [[p [msg [Hp Hpath]]] | [[msg [mid [_ Hpath]]] | [e [_ [_ Hpath]]]]];
    rewrite (Hpath w eq_refl) in Hrun; inversion Hrun; subst r w'.
  - left. exists p. auto.
  - right. split; [reflexivity|]. exists msg. reflexivity.
Qed.

(** X6: the error of a result is what the last logged line says, as a
    warning, and no other warning is logged; a result without error comes
    without any warning. *)
Theorem run_hashcat_error_is_logged (w : world) (r : PowResult)
    (w' : world) :
  run w = (Ret r, w') ->
  exists evs,
    trace w' = trace w ++ evs
    /\ match error r with
       | Some msg =>
           exists before,
             evs = before ++ [Log WARNING msg]
             /\ forallb (fun ev => negb (is_warning ev)) before = true
       | None => forallb (fun ev => negb (is_warning ev)) evs = true
       end.
Proof.
  intros Hrun.
  destruct (run_hashcat_paths (tick w))
    as [[p [msg [Hp Hpath]]] | [[msg [mid [Hmid Hpath]]] | [e [_ [_ Hpath]]]]];
    rewrite (Hpath w eq_refl) in Hrun; inversion Hrun; subst r w'.
  - eexists. split; [reflexivity|]. reflexivity.
  - eexists. split; [reflexivity|]. cbn [error].
    exists (prologue ++ mid). split; [rewrite <- app_assoc; reflexivity|].
    destruct Hmid as [-> | [e ->]]; reflexivity.
Qed.

(** X7: what [except Exception] does not catch ([KeyboardInterrupt],
    [SystemExit]) leaves [run_hashcat] as it came: no result, no second
    clock reading, nothing logged after the child was started. *)
Theorem run_hashcat_interrupted (w : world) (e : exn) :
  child E (S (tick w)) cmd timeout = Raise e ->
  is_Exception e = false ->
  exists w' evs,
    run w = (Raise e, w')
    /\ tick w' = 2 + tick w
    /\ queue w' = queue w
    /\ trace w' = trace w ++ evs ++ [Spawn cmd timeout].
Proof.
  intros Hchild Hexc. unfold run.
  rewrite (run_hashcat_uncaught E run_id _hash salt mode chars mask timeout
             hashcat_path hashcat_workload_profile session w e Hchild Hexc).
  eexists. eexists [_; _]. repeat split.
Qed.

(** X8: a run reads nothing of the world but the point in time: started
    at the same interaction in two worlds, it gives the same outcome, adds
    the same events to what happened and takes as many interactions,
    whatever the queue and the earlier events are. *)
Theorem run_hashcat_world_independent (w1 w2 : world) :
  tick w1 = tick w2 ->
  exists o n evs,
    run w1 = (o, advance w1 n evs) /\ run w2 = (o, advance w2 n evs).
Proof.
  intros Ht.
  destruct (run_hashcat_paths (tick w1))
    as [[p [msg [Hp Hpath]]] | [[msg [mid [_ Hpath]]] | [e [_ [_ Hpath]]]]];
    rewrite (Hpath w1 eq_refl), (Hpath w2 (eq_sym Ht)); eauto.
Qed.

End RunnerMore.

Lemma run_hashcat_unexpected_failure_witness :
  exists w' msg,
    run_fake (Raise (OSError (lit "[Errno 2] No such file or directory")))
      idle
    = (Ret {| password := None;
              local_execution_time := 1.5%float;
              error := Some msg |}, w')
    /\ msg = lit "run1: " ++ CROSS_MARK
             ++ lit " run_hashcat execution failed: "
             ++ lit "[Errno 2] No such file or directory".
Proof.
  assert (Hnt : forall text,
             OSError (lit "[Errno 2] No such file or directory")
             <> TimeoutExpired text) by (intros; discriminate).
  destruct (run_hashcat_unexpected_failure
              (fake_tool
                 (Raise (OSError (lit "[Errno 2] No such file or directory"))))
              (lit "run1") (lit "abc123") (lit "salt") (lit "610")
              (lit "abc") (lit "?1?1") 30 (lit "hashcat") (lit "3")
              (lit "6f1c0a2e1b2c4d3e8f4a5b6c7d8e9f00") idle
              (OSError (lit "[Errno 2] No such file or directory"))
              eq_refl eq_refl Hnt)
    as [w' [msg [Hrun [Hmsg _]]]].
  exists w', msg. split; [exact Hrun | exact Hmsg].
Defined.

Lemma run_hashcat_password_xor_error_witness :
  exists r w',
    run_fake (Ret found_secret) idle = (Ret r, w')
    /\ ((exists p, password r = Some p /\ p <> [] /\ error r = None)
        \/ (password r = None /\ exists msg, error r = Some msg)).
Proof.
  eexists; eexists. split; [reflexivity|].
  apply (run_hashcat_password_xor_error (fake_tool (Ret found_secret))
           (lit "run1") (lit "abc123") (lit "salt") (lit "610")
           (lit "abc") (lit "?1?1") 30 (lit "hashcat") (lit "3")
           (lit "6f1c0a2e1b2c4d3e8f4a5b6c7d8e9f00") idle _
           (snd (run_fake (Ret found_secret) idle))).
  reflexivity.
Defined.

Lemma run_hashcat_error_is_logged_witness :
  exists r w' evs,
    run_fake (Ret tool_error) idle = (Ret r, w')
    /\ trace w' = trace idle ++ evs
    /\ match error r with
       | Some msg =>
           exists before,
             evs = before ++ [Log WARNING msg]
             /\ forallb (fun ev => negb (is_warning ev)) before = true
       | None => forallb (fun ev => negb (is_warning ev)) evs = true
       end.
Proof.
  eexists; eexists.
  assert (Hrun : run_fake (Ret tool_error) idle
                 = (fst (run_fake (Ret tool_error) idle),
                    snd (run_fake (Ret tool_error) idle)))
    by reflexivity.
  destruct (run_hashcat_error_is_logged (fake_tool (Ret tool_error))
              (lit "run1") (lit "abc123") (lit "salt") (lit "610")
              (lit "abc") (lit "?1?1") 30 (lit "hashcat") (lit "3")
              (lit "6f1c0a2e1b2c4d3e8f4a5b6c7d8e9f00") idle _ _ Hrun)
    as [evs [Htrace Hlast]].
  exists evs. split; [reflexivity|]. split; [exact Htrace | exact Hlast].
Defined.

Lemma run_hashcat_interrupted_witness :
  exists w' evs,
    run_fake (Raise KeyboardInterrupt) busy = (Raise KeyboardInterrupt, w')
    /\ tick w' = 2
    /\ queue w' = [lit "run0"]
    /\ trace w'
       = trace busy ++ evs
         ++ [Spawn (command (lit "hashcat") (lit "abc123") (lit "salt")
                      (lit "610") (lit "abc") (lit "?1?1") (lit "3")
                      (lit "6f1c0a2e1b2c4d3e8f4a5b6c7d8e9f00")) 30].
Proof.
  apply (run_hashcat_interrupted (fake_tool (Raise KeyboardInterrupt))
           (lit "run1") (lit "abc123") (lit "salt") (lit "610")
           (lit "abc") (lit "?1?1") 30 (lit "hashcat") (lit "3")
           (lit "6f1c0a2e1b2c4d3e8f4a5b6c7d8e9f00") busy KeyboardInterrupt);
    reflexivity.
Defined.

Lemma run_hashcat_world_independent_witness :
  exists o n evs,
    run_fake (Ret found_secret) idle = (o, advance idle n evs)
    /\ run_fake (Ret found_secret) busy = (o, advance busy n evs).
Proof.
  apply (run_hashcat_world_independent (fake_tool (Ret found_secret))
           (lit "run1") (lit "abc123") (lit "salt") (lit "610")
           (lit "abc") (lit "?1?1") 30 (lit "hashcat") (lit "3")
           (lit "6f1c0a2e1b2c4d3e8f4a5b6c7d8e9f00") idle busy).
  reflexivity.
Defined.

(** ** More on the orchestrator *)

Section QueueFacts.

Variable x : str.

Lemma remove_first_perm (q q' : list str) :
  remove_first x q = Some q' -> Permutation (x :: q') q.
Proof.
  revert q'. induction q as [|y q IH]; intros q'; simpl; [discriminate|].
  destruct (str_eqb y x) eqn:Hyx.
  - apply str_eqb_eq in Hyx. subst y. intros Heq. inversion Heq.
    apply Permutation_refl.
  - destruct (remove_first x q) as [r|]; [|discriminate].
    intros Heq. inversion Heq; subst q'.
    apply perm_trans with (y :: x :: r); [apply perm_swap|].
    apply perm_skip. apply IH. reflexivity.
Qed.

Lemma remove_first_skip (q1 r : list str) :
  ~ In x q1 -> remove_first x (q1 ++ x :: r) = Some (q1 ++ r).
Proof.
  induction q1 as [|y q1 IH]; intros Hnot; simpl.
  - rewrite str_eqb_refl. reflexivity.
  - destruct (str_eqb y x) eqn:Hyx.
    + apply str_eqb_eq in Hyx. exfalso. apply Hnot. left. exact Hyx.
    + rewrite IH; [reflexivity|]. intros Hin. apply Hnot. right. exact Hin.
Qed.

Lemma remove_first_absent (q : list str) :
  remove_first x q = None <-> ~ In x q.
Proof.
  induction q as [|y q IH]; simpl.
  - split; [intros _ [] | reflexivity].
  - destruct (str_eqb y x) eqn:Hyx.
    + apply str_eqb_eq in Hyx. split; [discriminate|].
      intros Hnot. exfalso. apply Hnot. left. exact Hyx.
    + destruct (remove_first x q) as [r|].
      * split; [discriminate|]. intros Hnot. exfalso.
        assert (Hin : In x q).
        { destruct (in_dec (list_eq_dec N.eq_dec) x q) as [H|H]; [exact H|].
          apply IH in H. discriminate H. }
        apply Hnot. right. exact Hin.
      * split; [|reflexivity]. intros _ [Heq|Hin].
        -- subst y. rewrite str_eqb_refl in Hyx. discriminate Hyx.
        -- apply IH in Hin; [exact Hin | reflexivity].
Qed.

End QueueFacts.

Lemma replace_removes (old : char) (s : str) : ~ In old (replace old [] s).
Proof.
  induction s as [|c s IH]; simpl; [intros []|].
  destruct (N.eqb_spec c old) as [->|Hne]; [exact IH|].
  intros [H|H]; [congruence | contradiction].
Qed.

Lemma replace_length (old : char) (s : str) :
  List.length (replace old [] s) + count_occ N.eq_dec s old = List.length s.
Proof.
  induction s as [|c s IH]; simpl; [reflexivity|].
  destruct (N.eqb_spec c old) as [->|Hne].
  - destruct (N.eq_dec old old); [simpl; lia | congruence].
  - destruct (N.eq_dec c old); [congruence | simpl; lia].
Qed.

Section OrchestratorMore.

Variable E : env.
Variables run_id _hash salt mode chars mask : str.
Variables hashcat_path hashcat_workload_profile opts : str.

Let token (w : world) : str := replace HYPHEN [] (uuid4 E (tick w)).

Let entered (w : world) : world :=
  {| queue := queue w ++ [run_id]; tick := S (tick w); trace := trace w |}.

Let runner (w : world) : M PowResult :=
  run_hashcat E run_id _hash salt mode chars mask (pow_timeout E)
    hashcat_path hashcat_workload_profile (token w).

Let dispatch : M PowResult :=
  run_miner_pow E run_id _hash salt mode chars mask
    hashcat_path hashcat_workload_profile opts.

Let answer (w : world) : outcome CompletedProcess :=
  child E (S (S (tick w)))
    (command hashcat_path _hash salt mode chars mask
       hashcat_workload_profile (token w))
    (pow_timeout E).

(** A dispatch, in full: the outcome of the runner, the world the runner
    left, and the queue with the first [run_id] taken out. *)
Lemma dispatch_unfolded (w : world) :
  exists q',
    remove_first run_id (queue w ++ [run_id]) = Some q'
    /\ dispatch w
       = (fst (runner w (entered w)),
          {| queue := q';
             tick := tick (snd (runner w (entered w)));
             trace := trace (snd (runner w (entered w))) |}).
Proof.
  destruct (remove_first_appended run_id (queue w)) as [q' [Hrm _]].
  exists q'. split; [exact Hrm|].
  unfold dispatch. rewrite run_miner_pow_steps.
  pose proof (run_hashcat_queue E run_id _hash salt mode chars mask
                (pow_timeout E) hashcat_path hashcat_workload_profile
                (token w) (entered w)) as Hq.
  unfold runner, token in *. fold (entered w).
  destruct (run_hashcat E run_id _hash salt mode chars mask (pow_timeout E)
              hashcat_path hashcat_workload_profile
              (replace HYPHEN [] (uuid4 E (tick w))) (entered w))
    as [o w2].
  cbn [fst snd] in *.
  rewrite Hq. cbn [entered queue]. rewrite Hrm. reflexivity.
Qed.

(** X9: the cleanup of a dispatch never fails and never loses an entry.
    Whatever the queue holds at the call, [queue.remove] finds [run_id]
    (no [ValueError]), the dispatch ends as the runner ended, and the queue
    then holds the entries it held at the call, possibly in another
    order. *)
Theorem run_miner_pow_keeps_entries (w : world) :
  exists o w_out w',
    runner w (entered w) = (o, w_out)
    /\ dispatch w = (o, w')
    /\ Permutation (queue w') (queue w)
    /\ tick w' = tick w_out
    /\ trace w' = trace w_out.
Proof.
  destruct (dispatch_unfolded w) as [q' [Hrm Hd]].
  destruct (runner w (entered w)) as [o w_out] eqn:Hrun.
  cbn [fst snd] in Hd.
  exists o, w_out. eexists. split; [reflexivity|].
  split; [exact Hd|]. cbn [queue tick trace].
  split; [|split; reflexivity].
  apply remove_first_perm in Hrm.
  apply Permutation_cons_inv with (a := run_id).
  apply perm_trans with (queue w ++ [run_id]); [exact Hrm|].
  apply Permutation_sym, Permutation_cons_append.
Qed.

(** X10: a [run_id] that is dispatched while it is already in the queue
    is still in the queue when the dispatch returns: [queue.remove] takes
    the earlier entry out and leaves the one this dispatch appended. *)
Theorem run_miner_pow_duplicate_run_id (w : world) (q1 q2 : list str) :
  queue w = q1 ++ run_id :: q2 ->
  ~ In run_id q1 ->
  queue (snd (dispatch w)) = q1 ++ q2 ++ [run_id]
  /\ In run_id (queue (snd (dispatch w))).
Proof.
  intros Hq Hq1. destruct (dispatch_unfolded w) as [q' [Hrm Hd]].
  rewrite Hd. cbn [snd queue].
  rewrite Hq, <- app_assoc in Hrm. cbn [app] in Hrm.
  rewrite (remove_first_skip run_id q1 (q2 ++ [run_id]) Hq1) in Hrm.
  inversion Hrm; subst q'. split; [reflexivity|].
  apply in_or_app. right. apply in_or_app. right. left. reflexivity.
Qed.


(** X12: the child of a dispatch gets the configured timeout and, as
    session, the fresh uuid with its hyphens taken out: the token holds no
    ['-'] and is shorter than the uuid by the number of its hyphens. *)
Theorem run_miner_pow_session_token (w : world) :
  exists before after,
    trace (snd (dispatch w))
    = trace w ++ before
      ++ [Spawn (command hashcat_path _hash salt mode chars mask
                   hashcat_workload_profile (token w)) (pow_timeout E)]
      ++ after
    /\ forallb (fun ev => negb (is_spawn ev)) (before ++ after) = true
    /\ ~ In HYPHEN (token w)
    /\ List.length (token w) + count_occ N.eq_dec (uuid4 E (tick w)) HYPHEN
       = List.length (uuid4 E (tick w)).
Proof.
  destruct (dispatch_unfolded w) as [q' [_ Hd]]. rewrite Hd. cbn [snd trace].
  assert (Htrace : exists before after,
            trace (snd (runner w (entered w)))
            = trace w ++ before
              ++ [Spawn (command hashcat_path _hash salt mode chars mask
                           hashcat_workload_profile (token w))
                    (pow_timeout E)] ++ after
            /\ forallb (fun ev => negb (is_spawn ev)) (before ++ after)
               = true).
  { unfold runner.
    destruct (run_hashcat_paths E run_id _hash salt mode chars mask
                (pow_timeout E) hashcat_path hashcat_workload_profile
                (token w) (tick (entered w)))
      as [[p [msg [_ Hpath]]]
         | [[msg [mid [Hmid Hpath]]] | [e [_ [_ Hpath]]]]];
      rewrite (Hpath (entered w) eq_refl); cbn [snd advance trace entered].
    - eexists [_; _]. eexists [_]. split; reflexivity.
    - eexists [_; _]. exists (mid ++ [Log WARNING msg]).
      split; [reflexivity|]. destruct Hmid as [-> | [e ->]]; reflexivity.
    - eexists [_; _]. exists []. split; reflexivity. }
  destruct Htrace as [before [after [Htr Hns]]].
  exists before, after. split; [exact Htr|]. split; [exact Hns|].
  split; [apply replace_removes | apply replace_length].
Qed.

(** X13: a find reaches the caller of the dispatch.  When the child exits
    with code 0 and [hashcat_verify] extracts a plaintext that is not empty
    from its stdout, [run_miner_pow] returns that plaintext as password,
    no error, and the time between the two clock readings of the run. *)
Theorem run_miner_pow_success (w : world) (cp : CompletedProcess)
    (p : str) :
  answer w = Ret cp ->
  returncode cp = 0%Z ->
  hashcat_verify _hash (stdout cp) = Ret (Some p) ->
  p <> [] ->
  exists w',
    dispatch w
    = (Ret {| password := Some p;
              local_execution_time :=
                PrimFloat.sub (clock E (3 + tick w)) (clock E (1 + tick w));
              error := None |}, w')
    /\ Permutation (queue w') (queue w)
    /\ tick w' = 4 + tick w.
Proof.
  intros Hchild Hrc Hv Hp.
  destruct (dispatch_unfolded w) as [q' [Hrm Hd]].
  unfold answer in Hchild.
  change (S (S (tick w))) with (S (tick (entered w))) in Hchild.
  unfold runner in Hd.
  rewrite (run_hashcat_found E run_id _hash salt mode chars mask
             (pow_timeout E) hashcat_path hashcat_workload_profile
             (token w) (entered w) cp p Hchild Hrc Hv Hp) in Hd.
  cbn [fst snd advance tick trace entered] in Hd.
  eexists. split; [exact Hd|]. cbn [queue tick]. split; [|reflexivity].
  apply remove_first_perm in Hrm.
  apply Permutation_cons_inv with (a := run_id).
  apply perm_trans with (queue w ++ [run_id]); [exact Hrm|].
  apply Permutation_sym, Permutation_cons_append.
Qed.

(** A dispatch does not read what happened before it: with more events
    behind it, it ends the same way and adds the same events. *)
Lemma dispatch_after_events (w : world) (evs0 : list event) :
  exists o q' n evs,
    dispatch w = (o, {| queue := q'; tick := n; trace := trace w ++ evs |})
    /\ dispatch (advance w 0 evs0)
       = (o, {| queue := q'; tick := n;
                trace := (trace w ++ evs0) ++ evs |}).
Proof.
  destruct (dispatch_unfolded w) as [q' [Hrm Hd]].
  destruct (dispatch_unfolded (advance w 0 evs0)) as [q0 [Hrm0 Hd0]].
  cbn [advance queue] in Hrm0. rewrite Hrm in Hrm0. inversion Hrm0; subst q0.
  rewrite Hd, Hd0. unfold runner.
  change (token (advance w 0 evs0)) with (token w).
  destruct (run_hashcat_paths E run_id _hash salt mode chars mask
              (pow_timeout E) hashcat_path hashcat_workload_profile
              (token w) (tick (entered w)))
    as [[p [msg [_ Hpath]]]
       | [[msg [mid [_ Hpath]]] | [e [_ [_ Hpath]]]]];
    rewrite (Hpath (entered w) eq_refl),
            (Hpath (entered (advance w 0 evs0)) eq_refl);
    cbn [fst snd advance tick trace queue entered];
    eexists; exists q'; eexists; eexists; split; reflexivity.
Qed.

(** X14: the CUDA probe is a side channel.  It logs one line (an [INFO]
    when CUDA is available, a [WARNING] when it is not) and does nothing
    else; a dispatch that follows it returns what it returns without the
    probe, leaves the same queue and adds the same events. *)
Theorem check_cuda_availability_then_dispatch (T : torch_cuda) (w : world) :
  let line :=
    if is_available T then
      Log INFO (lit "CUDA is available with " ++ str_of_int (device_count T)
                ++ lit " CUDA device(s)!")
    else
      Log WARNING
        (lit "CUDA is not available or not properly configured on this system.")
  in
  exists o q' n evs,
    check_cuda_availability T w = (Ret tt, advance w 0 [line])
    /\ dispatch w = (o, {| queue := q'; tick := n; trace := trace w ++ evs |})
    /\ (check_cuda_availability T ;; dispatch) w
       = (o, {| queue := q'; tick := n;
                trace := trace w ++ [line] ++ evs |}).
Proof.
  intros line.
  assert (Hprobe : check_cuda_availability T w = (Ret tt, advance w 0 [line])).
  { unfold check_cuda_availability, line. destruct (is_available T);
      reflexivity. }
  destruct (dispatch_after_events w [line]) as [o [q' [n [evs [Hd Hd0]]]]].
  exists o, q', n, evs.
  split; [exact Hprobe|]. split; [exact Hd|].
  unfold bind. rewrite Hprobe, Hd0, <- app_assoc. reflexivity.
Qed.

End OrchestratorMore.

Lemma run_miner_pow_duplicate_run_id_witness :
  queue (snd (dispatch_fake (Ret found_secret) crowded))
  = [lit "run0"] ++ [lit "run2"] ++ [lit "run1"]
  /\ In (lit "run1") (queue (snd (dispatch_fake (Ret found_secret) crowded))).
Proof.
  apply (run_miner_pow_duplicate_run_id (fake_tool (Ret found_secret))
           (lit "run1") (lit "abc123") (lit "salt") (lit "610")
           (lit "abc") (lit "?1?1") (lit "hashcat") (lit "3")
           (lit "--force") crowded [lit "run0"] [lit "run2"]).
  - reflexivity.
  - intros [H|[]]. discriminate H.
Defined.


Lemma run_miner_pow_success_witness :
  exists w',
    dispatch_fake (Ret found_secret) idle
    = (Ret {| password := Some (lit "secret123");
              local_execution_time := 1.5%float;
              error := None |}, w')
    /\ Permutation (queue w') []
    /\ tick w' = 4.
Proof.
  apply (run_miner_pow_success (fake_tool (Ret found_secret))
           (lit "run1") (lit "abc123") (lit "salt") (lit "610")
           (lit "abc") (lit "?1?1") (lit "hashcat") (lit "3")
           (lit "--force") idle found_secret (lit "secret123")).
  - reflexivity.
  - reflexivity.
  - reflexivity.
  - discriminate.
Defined.

(** ** The command line in the log *)

Section CommandLine.

Lemma shlex_quote_safe (s : str) :
  s <> [] -> forallb shlex_safe s = true -> shlex_quote s = s.
Proof.
  intros Hne Hsafe. unfold shlex_quote. rewrite Hsafe.
  destruct s; [congruence | reflexivity].
Qed.

Lemma replace_apostrophe_injective (r s t : str) :
  replace APOSTROPHE (APOSTROPHE :: r) s
  = replace APOSTROPHE (APOSTROPHE :: r) t ->
  s = t.
Proof.
  revert t. induction s as [|c s IH]; intros [|d t]; simpl.
  - reflexivity.
  - destruct (d =? APOSTROPHE)%N; discriminate.
  - destruct (c =? APOSTROPHE)%N; discriminate.
  - destruct (N.eqb_spec c APOSTROPHE) as [->|Hc];
      destruct (N.eqb_spec d APOSTROPHE) as [->|Hd]; intros Heq.
    + inversion Heq as [Htl]. apply app_inv_head in Htl.
      rewrite (IH t Htl). reflexivity.
    + inversion Heq. congruence.
    + inversion Heq. congruence.
    + inversion Heq as [[Hcd Htl]]. rewrite (IH t Htl). reflexivity.
Qed.

(** X15: [shlex.quote] tells its arguments apart: two texts with the same
    quoted form are the same text, so the logged command line names each
    argument without ambiguity. *)
Theorem shlex_quote_injective (s t : str) :
  shlex_quote s = shlex_quote t -> s = t.
Proof.
  unfold shlex_quote.
  destruct s as [|c s]; destruct t as [|d t]; cbn [truthy negb].
  - reflexivity.
  - destruct (forallb shlex_safe (d :: t)) eqn:Ht; intros Heq.
    + rewrite <- Heq in Ht. discriminate Ht.
    + inversion Heq as [Htl]. symmetry in Htl.
      apply app_eq_unit in Htl as [[Hr _] | [_ Hr]]; [|discriminate Hr].
      destruct (d =? APOSTROPHE)%N; discriminate Hr.
  - destruct (forallb shlex_safe (c :: s)) eqn:Hs; intros Heq.
    + rewrite Heq in Hs. discriminate Hs.
    + inversion Heq as [Htl].
      apply app_eq_unit in Htl as [[Hr _] | [_ Hr]]; [|discriminate Hr].
      destruct (c =? APOSTROPHE)%N; discriminate Hr.
  - destruct (forallb shlex_safe (c :: s)) eqn:Hs;
      destruct (forallb shlex_safe (d :: t)) eqn:Ht; intros Heq.
    + exact Heq.
    + rewrite Heq in Hs. discriminate Hs.
    + rewrite <- Heq in Ht. discriminate Ht.
    + inversion Heq as [Htl]. apply app_inv_tail in Htl.
      apply (replace_apostrophe_injective
               [QUOTATION; APOSTROPHE; QUOTATION; APOSTROPHE]
               (c :: s) (d :: t)).
      exact Htl.
Qed.

(** X16: the logged command line of arguments that are not empty and need
    no quoting (letters, digits and [_@%+=:,./-] only) splits back on
    blanks into the argument vector. *)
Theorem command_str_splits_back (cmd : list str) :
  cmd <> [] ->
  Forall (fun arg => arg <> [] /\ forallb shlex_safe arg = true) cmd ->
  split SPACE (command_str cmd) = cmd.
Proof.
  intros Hne Hall. unfold command_str.
  assert (Hmap : map shlex_quote cmd = cmd).
  { clear Hne. induction Hall as [|arg cmd [Harg Hsafe] _ IH]; [reflexivity|].
    simpl. rewrite (shlex_quote_safe arg Harg Hsafe), IH. reflexivity. }
  rewrite Hmap. change (lit " ") with [SPACE]. apply split_join; [exact Hne|].
  eapply Forall_impl; [|exact Hall]. intros arg [_ Hsafe] Hin.
  rewrite forallb_forall in Hsafe. specialize (Hsafe SPACE Hin).
  discriminate Hsafe.
Qed.

End CommandLine.

Lemma shlex_quote_injective_witness :
  lit "it's ?1" = lit "it's ?1".
Proof.
  apply (shlex_quote_injective (lit "it's ?1") (lit "it's ?1")).
  reflexivity.
Defined.

Lemma command_str_splits_back_witness :
  split SPACE
    (command_str (command (lit "hashcat") (lit "abc123") (lit "salt")
                    (lit "610") (lit "abc") (lit "abcd") (lit "3")
                    (lit "6f1c0a2e1b2c4d3e8f4a5b6c7d8e9f00")))
  = command (lit "hashcat") (lit "abc123") (lit "salt") (lit "610")
      (lit "abc") (lit "abcd") (lit "3")
      (lit "6f1c0a2e1b2c4d3e8f4a5b6c7d8e9f00").
Proof.
  apply (command_str_splits_back
           (command (lit "hashcat") (lit "abc123") (lit "salt") (lit "610")
              (lit "abc") (lit "abcd") (lit "3")
              (lit "6f1c0a2e1b2c4d3e8f4a5b6c7d8e9f00"))).
  - discriminate.
  - repeat constructor; discriminate.
Defined.

(** ** The string operations the module relies on *)

Section StringModel.

Lemma lstrip_fixed (t : str) : no_leading_space t -> lstrip t = t.
Proof.
  destruct t as [|c t]; [reflexivity|]. cbn [no_leading_space lstrip].
  intros ->. reflexivity.
Qed.

(** X17: [strip] in full.  [strip s] is [t] exactly when [s] is [t] between
    two runs of whitespace and [t] neither starts nor ends with
    whitespace. *)
Theorem strip_characterised (s t : str) :
  strip s = t
  <-> exists w1 w2,
        s = w1 ++ t ++ w2
        /\ forallb isspace w1 = true /\ forallb isspace w2 = true
        /\ no_leading_space t /\ no_trailing_space t.
Proof.
  split.
  - intros <-. destruct (strip_spec s) as [w1 [w2 [Hs [Hw1 Hw2]]]].
    exists w1, w2. repeat split; try assumption; apply strip_ends.
  - intros [w1 [w2 [-> [Hw1 [Hw2 [Hlead Htrail]]]]]].
    rewrite strip_app_space_l, strip_app_space_r by assumption.
    unfold strip. rewrite (lstrip_fixed t Hlead). apply rstrip_fixed.
    exact Htrail.
Qed.

(** X18: [split] and [join] undo each other.  Joining the fields of a
    split with the separator gives the text back; a split never gives an
    empty list and none of its fields holds the separator; and splitting
    the join of such fields gives the fields back. *)
Theorem split_join_round_trip (sep : char) :
  (forall s, join [sep] (split sep s) = s)
  /\ (forall s, split sep s <> []
                /\ Forall (fun f => ~ In sep f) (split sep s))
  /\ (forall fs, fs <> [] -> Forall (fun f => ~ In sep f) fs ->
                 split sep (join [sep] fs) = fs).
Proof.
  split; [apply join_split|]. split.
  - intros s. split; [apply split_not_nil | apply split_fields_no_sep].
  - apply split_join.
Qed.

Lemma digits_head (u : Decimal.uint) (c : char) (r : str) :
  digits u = c :: r -> (48 <= c <= 57)%N.
Proof. destruct u; simpl; intros H; inversion H; lia. Qed.

Lemma digits_injective (u v : Decimal.uint) : digits u = digits v -> u = v.
Proof.
  revert v. induction u; intros v; destruct v; simpl; intros H;
    try discriminate H; try reflexivity;
    inversion H as [Htl]; f_equal; apply IHu; exact Htl.
Qed.

(** X19: the decimal text of an exit code determines it: two integers
    with the same text are equal, and the text of an integer below zero is
    the only one that starts with ['-']. *)
Theorem str_of_int_injective (a b : Z) :
  (str_of_int a = str_of_int b -> a = b)
  /\ (startswith [HYPHEN] (str_of_int a) = true <-> (a < 0)%Z).
Proof.
  split.
  - unfold str_of_int. intros Heq.
    rewrite <- (DecimalZ.of_to a), <- (DecimalZ.of_to b).
    destruct (Z.to_int a) as [u|u]; destruct (Z.to_int b) as [v|v].
    + rewrite (digits_injective u v Heq). reflexivity.
    + apply digits_head in Heq. unfold HYPHEN in Heq. lia.
    + symmetry in Heq. apply digits_head in Heq. unfold HYPHEN in Heq. lia.
    + inversion Heq as [Htl]. rewrite (digits_injective u v Htl). reflexivity.
  - unfold str_of_int. destruct a as [|p|p]; cbn [Z.to_int].
    + split; [discriminate | lia].
    + split; [|lia]. intros H.
      destruct (digits (Pos.to_uint p)) as [|c r] eqn:Hd; [discriminate H|].
      apply digits_head in Hd. cbn [startswith] in H.
      apply andb_true_iff in H as [H _]. apply N.eqb_eq in H.
      unfold HYPHEN in H. lia.
    + split; [lia|]. intros _. cbn [startswith]. rewrite N.eqb_refl.
      reflexivity.
Qed.

End StringModel.

Lemma split_join_round_trip_witness :
  split LF (join [LF] [lit "abc123:salt:secret123"; []; lit "Stopped"])
  = [lit "abc123:salt:secret123"; []; lit "Stopped"].
Proof.
  apply (proj2 (proj2 (split_join_round_trip LF))).
  - discriminate.
  - repeat constructor; vm_compute; intuition discriminate.
Defined.

Lemma str_of_int_injective_witness : (-9)%Z = (-9)%Z.
Proof.
  apply (proj1 (str_of_int_injective (-9) (-9))). reflexivity.
Defined.

Lemma strip_characterised_witness :
  strip (lit "  abc123:salt: pw   ") = lit "abc123:salt: pw".
Proof.
  apply (proj2 (strip_characterised (lit "  abc123:salt: pw   ")
                  (lit "abc123:salt: pw"))).
  exists (lit "  "), (lit "   "). repeat split.
Defined.

(** ** The queue and the log *)

Section QueueAndLog.

Variable E : env.
Variables run_id _hash salt mode chars mask : str.
Variable timeout : Z.
Variables hashcat_path hashcat_workload_profile session : str.

(** X20: appending an entry to the queue and removing it again never
    fails and keeps the entries; when the entry was not in the queue, the
    world is back as it was. *)
Theorem queue_append_then_remove (x : str) (w : world) :
  exists w',
    (queue_append x ;; queue_remove x) w = (Ret tt, w')
    /\ Permutation (queue w') (queue w)
    /\ tick w' = tick w /\ trace w' = trace w
    /\ (~ In x (queue w) -> queue w' = queue w).
Proof.
  destruct (remove_first_appended x (queue w)) as [q' [Hrm [_ Hsame]]].
  unfold bind, queue_append, queue_remove. cbn [queue tick trace].
  rewrite Hrm. eexists. split; [reflexivity|]. cbn [queue tick trace].
  split; [|repeat split; exact Hsame].
  apply remove_first_perm in Hrm.
  apply Permutation_cons_inv with (a := x).
  apply perm_trans with (queue w ++ [x]); [exact Hrm|].
  apply Permutation_sym, Permutation_cons_append.
Qed.

(** X21: removing an entry that is not in the queue raises [ValueError]
    and changes nothing; removing one that is there never raises. *)
Theorem queue_remove_missing (x : str) (w : world) :
  (~ In x (queue w)
   -> exists text, queue_remove x w = (Raise (ValueError text), w))
  /\ (In x (queue w)
      -> exists w', queue_remove x w = (Ret tt, w')
                    /\ Permutation (x :: queue w') (queue w)).
Proof.
  unfold queue_remove. split.
  - intros Hnot. apply remove_first_absent in Hnot. rewrite Hnot. eauto.
  - intros Hin. destruct (remove_first x (queue w)) as [q'|] eqn:Hrm.
    + eexists. split; [reflexivity|]. cbn [queue].
      apply remove_first_perm. exact Hrm.
    + apply remove_first_absent in Hrm. contradiction.
Qed.

(** X22: a find is written to the log with the password in clear: the
    last event of a successful run is a [SUCCESS] line that holds the run
    id and the recovered plaintext. *)
Theorem run_hashcat_logs_password (w : world) (cp : CompletedProcess)
    (p : str) :
  child E (S (tick w))
    (command hashcat_path _hash salt mode chars mask
       hashcat_workload_profile session) timeout = Ret cp ->
  returncode cp = 0%Z ->
  hashcat_verify _hash (stdout cp) = Ret (Some p) ->
  p <> [] ->
  exists evs msg,
    trace (snd (run_hashcat E run_id _hash salt mode chars mask timeout
                  hashcat_path hashcat_workload_profile session w))
    = trace w ++ evs ++ [Log SUCCESS msg]
    /\ contains run_id msg = true
    /\ contains p msg = true.
Proof.
  intros Hchild Hrc Hv Hp.
  rewrite (run_hashcat_found E run_id _hash salt mode chars mask timeout
             hashcat_path hashcat_workload_profile session
             w cp p Hchild Hrc Hv Hp).
  cbn [snd advance trace]. eexists [_; _; _]. eexists.
  split; [reflexivity|]. split.
  - apply contains_spec. exists []. eexists. reflexivity.
  - apply contains_spec.
    exists (run_id ++ lit ": " ++ CHECK_MARK ++ lit " Challenge ").
    eexists. repeat rewrite <- app_assoc. reflexivity.
Qed.

End QueueAndLog.

Lemma queue_remove_missing_witness :
  exists text, queue_remove (lit "run1") busy = (Raise (ValueError text), busy).
Proof.
  apply (proj1 (queue_remove_missing (lit "run1") busy)).
  intros [H|[]]. discriminate H.
Defined.

Lemma queue_append_then_remove_witness :
  queue (snd ((queue_append (lit "run1") ;; queue_remove (lit "run1")) busy))
  = [lit "run0"].
Proof.
  destruct (queue_append_then_remove (lit "run1") busy)
    as [w' [Hrun [_ [_ [_ Hsame]]]]].
  rewrite Hrun. cbn [snd]. apply Hsame.
  intros [H|[]]. discriminate H.
Defined.

Lemma run_hashcat_logs_password_witness :
  exists evs msg,
    trace (snd (run_fake (Ret found_secret) idle))
    = trace idle ++ evs ++ [Log SUCCESS msg]
    /\ contains (lit "run1") msg = true
    /\ contains (lit "secret123") msg = true.
Proof.
  apply (run_hashcat_logs_password (fake_tool (Ret found_secret))
           (lit "run1") (lit "abc123") (lit "salt") (lit "610")
           (lit "abc") (lit "?1?1") 30 (lit "hashcat") (lit "3")
           (lit "6f1c0a2e1b2c4d3e8f4a5b6c7d8e9f00") idle found_secret
           (lit "secret123")).
  - reflexivity.
  - reflexivity.
  - reflexivity.
  - discriminate.
Defined.
